(** * reactive-blocs: the executors of [src/executors.ts]

    The file wraps an executor (a function from optional arguments to an
    RxJS [Observable]) into live state: [execAndForward], [execAlways],
    [execOnce], [execControlled] and the class [ExecSubject].

    The embedding is state passing.  An [Observable] returned by an
    executor is a cold production: a list of notifications it sends while
    [subscribe] runs ([now]) and a list it sends afterwards, one per
    [Deliver] step of the environment ([later]).  Every call of the
    executor is recorded as an [invocation]; a subscriber that has seen
    [Raise] or [Complete], or that was unsubscribed, is [closed] and the
    notifications the production still sends are dropped, as RxJS does.

    JavaScript values are the primitives and the [Error] objects, which
    have an identity; other objects are left out.  Numbers are the integers
    ([VNum]) and [VNaN]; [strict_equal] is [===].  The callers of the
    library are observers that record what they receive, and a [control]
    that calls the trigger it is given; an executor is a function that
    returns, and what its production sends does not depend on the state of
    the library. *)

From Stdlib Require Import ZArith Lia.
From stdpp Require Import base list strings pretty.

(** ** JavaScript values *)

(** Who allocated an object: the caller of the library, or the library
    itself, at its [n]-th [new Error(..)]. *)
Inductive origin :=
| Caller (k : nat)
| Library (n : nat).

Inductive value :=
| VUndefined
| VNull
| VBool (b : bool)
| VNum (z : Z)
| VNaN
| VStr (s : string)
| VError (o : origin) (name message : string).

#[global] Instance origin_eq_dec : EqDecision origin.
Proof. solve_decision. Defined.

#[global] Instance value_eq_dec : EqDecision value.
Proof. solve_decision. Defined.

(** [a === b]: identity on objects, equality on primitives, and [NaN] is
    equal to nothing. *)
Definition strict_equal (a b : value) : bool :=
  match a with
  | VNaN => false
  | _ => bool_decide (a = b)
  end.

(** [v instanceof Error] *)
Definition instanceof_Error (v : value) : bool :=
  match v with
  | VError _ _ _ => true
  | _ => false
  end.

(** [String(v)]: a number prints in decimal (JavaScript does so for the
    integers of magnitude below 10^21); on an error this is
    [Error.prototype.toString]. *)
Definition ToString (v : value) : string :=
  match v with
  | VUndefined => "undefined"
  | VNull => "null"
  | VBool true => "true"
  | VBool false => "false"
  | VNum z => pretty z
  | VNaN => "NaN"
  | VStr s => s
  | VError _ name message =>
      if bool_decide (name = "") then message
      else if bool_decide (message = "") then name
      else name +:+ ": " +:+ message
  end.

(** [new Error(err)], the [n]-th object the library allocates: the message
    is [String(err)], and empty when [err] is [undefined]. *)
Definition new_Error (n : nat) (err : value) : value :=
  VError (Library n) "Error"
    (match err with
     | VUndefined => ""
     | _ => ToString err
     end).


(** ** Observables as productions *)

Inductive notification :=
| Next (v : value)
| Raise (err : value)
| Complete.

Record production := Production {
  now : list notification;
  later : list notification
}.

(** [Executor<T, A> = (execArgs?: A) => Observable<T>]; a call without
    argument passes [undefined]. *)
Definition Executor := value -> production.

(** RxJS [of(v)] and [throwError(err)]. *)
Definition of_ (v : value) : production :=
  {| now := [Next v; Complete]; later := [] |}.

Definition throwError (err : value) : production :=
  {| now := [Raise err]; later := [] |}.

(** One call of the executor: its argument, what its production has still
    to send, and whether the subscriber of that production is closed. *)
Record invocation := Invocation {
  args : value;
  pending : list notification;
  closed : bool
}.

(** The notifications a production sends during [subscribe], handed to the
    subscriber [h] until it closes.  [h] answers [true] when the
    notification closes the subscriber. *)
Fixpoint drain {S : Type} (h : notification -> S -> S * bool)
    (ns : list notification) (s : S) : S * bool :=
  match ns with
  | [] => (s, false)
  | n :: ns' =>
      let '(s', stop) := h n s in
      if stop then (s', true) else drain h ns' s'
  end.

(** ** BehaviorSubject *)

Class Observer (O : Type) := observer_next : value -> O -> O.

(** An observer that records what it receives. *)
#[global] Instance recorder : Observer (list value) :=
  fun val seen => seen ++ [val].

Record BehaviorSubject (O : Type) := Subject {
  _value : value;
  observers : list O
}.
Arguments Subject {O} _ _.
Arguments _value {O} _.
Arguments observers {O} _.

Section BehaviorSubject.
Context {O : Type} `{Observer O}.

Definition new_BehaviorSubject (initialValue : value) : BehaviorSubject O :=
  {| _value := initialValue; observers := [] |}.

Definition getValue (s : BehaviorSubject O) : value := _value s.

(** [next(val)] stores the value, then notifies the observers in the
    order they subscribed. *)
Definition next (val : value) (s : BehaviorSubject O) : BehaviorSubject O :=
  {| _value := val; observers := observer_next val <$> observers s |}.

(** [subscribe(o)] registers the observer and sends it the current value. *)
Definition subscribe (o : O) (s : BehaviorSubject O) : BehaviorSubject O :=
  {| _value := _value s;
     observers := observers s ++ [observer_next (_value s) o] |}.
End BehaviorSubject.

(** ** execAndForward, execOnce, execControlled, execAlways *)

(** What the host has seen: [control] being handed the trigger, and every
    call of the executor. *)
Inductive event :=
| ControlRan
| Called (execArgs : value).

(** The closure the three simple variants build: the subject, the calls of
    the executor, and the errors nobody handles (RxJS reports them to the
    host). *)
Record world (O : Type) := World {
  subject : BehaviorSubject O;
  invocations : list invocation;
  unhandled : list value;
  journal : list event
}.
Arguments World {O} _ _ _ _.
Arguments subject {O} _.
Arguments invocations {O} _.
Arguments unhandled {O} _.
Arguments journal {O} _.

Section Forwarding.
Context {O : Type} `{Observer O}.

Definition new_world (initialValue : value) : world O :=
  {| subject := new_BehaviorSubject initialValue;
     invocations := []; unhandled := []; journal := [] |}.

(** The subscriber of [execAndForward]: [val => subject.next(val)], no
    error handler and no completion handler. *)
Definition forward (n : notification) (w : world O) : world O * bool :=
  match n with
  | Next val =>
      ({| subject := next val (subject w);
          invocations := invocations w;
          unhandled := unhandled w;
          journal := journal w |}, false)
  | Raise err =>
      ({| subject := subject w;
          invocations := invocations w;
          unhandled := unhandled w ++ [err];
          journal := journal w |}, true)
  | Complete => (w, true)
  end.

(** [exec(execArgs).subscribe(val => subject.next(val))]: the executor is
    called, then its production is subscribed to. *)
Definition execAndForward (exec : Executor) (execArgs : value)
    (w : world O) : world O :=
  let p := exec execArgs in
  let called :=
    {| subject := subject w;
       invocations := invocations w;
       unhandled := unhandled w;
       journal := journal w ++ [Called execArgs] |} in
  let '(w', stop) := drain forward (now p) called in
  {| subject := subject w';
     invocations := invocations w' ++
       [{| args := execArgs; pending := later p; closed := stop |}];
     unhandled := unhandled w';
     journal := journal w' |}.

Definition set_invocation (i : nat) (inv : invocation) (w : world O)
    : world O :=
  {| subject := subject w;
     invocations := <[i := inv]> (invocations w);
     unhandled := unhandled w;
     journal := journal w |}.

(** The environment lets the production of call [i] send its next
    notification. *)
Definition deliver (i : nat) (w : world O) : world O :=
  match invocations w !! i with
  | Some inv =>
      match pending inv with
      | [] => w
      | n :: rest =>
          if closed inv
          then set_invocation i
                 {| args := args inv; pending := rest; closed := true |} w
          else
            let '(w', stop) := forward n w in
            set_invocation i
              {| args := args inv; pending := rest; closed := stop |} w'
      end
  | None => w
  end.

(** A new observer subscribes to the subject itself. *)
Definition attach (o : O) (w : world O) : world O :=
  {| subject := subscribe o (subject w);
     invocations := invocations w;
     unhandled := unhandled w;
     journal := journal w |}.

(** [execOnce(exec, initialValue)] *)
Definition execOnce (exec : Executor) (initialValue : value) : world O :=
  let subject := new_world initialValue in
  execAndForward exec VUndefined subject.

(** [doExec = (execArgs?) => execAndForward(exec, subject, execArgs)] *)
Definition doExec (exec : Executor) (execArgs : value) (w : world O)
    : world O :=
  execAndForward exec execArgs w.

(** What a [control] does with the trigger while it runs: the arguments
    of the calls it makes.  Calls made later, by whoever kept the trigger,
    are [Trigger] steps. *)
Definition Control := list value.

Definition run_control (control : Control)
    (trigger : value -> world O -> world O) (w : world O) : world O :=
  foldl (fun w' execArgs => trigger execArgs w')
    {| subject := subject w;
       invocations := invocations w;
       unhandled := unhandled w;
       journal := journal w ++ [ControlRan] |}
    control.

(** [execControlled(exec, control, initialValue, executeImmediately = true)] *)
Definition execControlled (exec : Executor) (control : Control)
    (initialValue : value) (executeImmediately : option bool) : world O :=
  let subject := new_world initialValue in
  let w := run_control control (doExec exec) subject in
  if default true executeImmediately
  then doExec exec VUndefined w
  else w.
End Forwarding.

(** *** execAlways *)

(** The subscriber [execAlways] puts on the subject for one observer.
    [distinctUntilChanged()] remembers the last value it let through
    ([key], none before the first), the callback
    [val => val !== initialValue && observer.next(val)] passes the rest on,
    and [received] is what reached [observer.next], oldest first. *)
Record piped := Piped {
  initialValue : value;
  key : option value;
  received : list value
}.

(** [distinctUntilChanged()] lets the first value through, and then every
    value that is not [===] to the last one it let through. *)
Definition distinctUntilChanged (key : option value) (val : value) : bool :=
  match key with
  | None => true
  | Some k => negb (strict_equal k val)
  end.

#[global] Instance piped_observer : Observer piped :=
  fun val o =>
    if distinctUntilChanged (key o) val
    then {| initialValue := initialValue o;
            key := Some val;
            received := if negb (strict_equal val (initialValue o))
                        then received o ++ [val]
                        else received o |}
    else o.

(** [execAlways(exec, initialValue)] creates the subject and returns an
    [Observable]; nothing else runs until somebody subscribes. *)
Definition execAlways (exec : Executor) (initialValue : value) : world piped :=
  new_world initialValue.

(** The function given to [new Observable]: what one [subscribe] of an
    observer does. *)
Definition execAlways_subscribe (exec : Executor) (initialValue : value)
    (w : world piped) : world piped :=
  let first :=
    if strict_equal (getValue (subject w)) initialValue
    then [initialValue] else [] in
  let w1 := execAndForward exec VUndefined w in
  attach {| initialValue := initialValue; key := None; received := first |} w1.

(** *** What can happen after construction *)

(** The environment lets a production send a notification, or a new
    observer subscribes to what the constructor returned. *)
Inductive observation :=
| Deliver (i : nat)
| Observe.

(** For [execControlled], whoever holds the trigger may also call it. *)
Inductive controlled_action :=
| Env (o : observation)
| Trigger (execArgs : value).

Definition once_step (w : world (list value)) (o : observation)
    : world (list value) :=
  match o with
  | Deliver i => deliver i w
  | Observe => attach [] w
  end.

Definition controlled_step (exec : Executor) (w : world (list value))
    (a : controlled_action) : world (list value) :=
  match a with
  | Env o => once_step w o
  | Trigger execArgs => doExec exec execArgs w
  end.

Definition always_step (exec : Executor) (initialValue : value)
    (w : world piped) (o : observation) : world piped :=
  match o with
  | Deliver i => deliver i w
  | Observe => execAlways_subscribe exec initialValue w
  end.

(** ** ExecSubject *)

(** The object is a [BehaviorSubject] ([self]) with its private fields.
    [_executionStream] with [switchMap] is the list of executor calls
    ([executions]) and the one [switchMap] is subscribed to
    ([innerSubscription]); [allocated] counts the errors [performExec]
    has built.  The channels are the caller's subjects. *)
Record ExecSubject := ExecSubjectState {
  self : BehaviorSubject (list value);
  _executor : Executor;
  _error : option (BehaviorSubject (list value));
  _loading : option (BehaviorSubject (list value));
  innerSubscription : option nat;
  executions : list invocation;
  allocated : nat
}.

Definition set_self (b : BehaviorSubject (list value)) (s : ExecSubject) :=
  {| self := b; _executor := _executor s; _error := _error s;
     _loading := _loading s; innerSubscription := innerSubscription s;
     executions := executions s; allocated := allocated s |}.

Definition set_error (e : option (BehaviorSubject (list value)))
    (s : ExecSubject) :=
  {| self := self s; _executor := _executor s; _error := e;
     _loading := _loading s; innerSubscription := innerSubscription s;
     executions := executions s; allocated := allocated s |}.

Definition set_loading (l : option (BehaviorSubject (list value)))
    (s : ExecSubject) :=
  {| self := self s; _executor := _executor s; _error := _error s;
     _loading := l; innerSubscription := innerSubscription s;
     executions := executions s; allocated := allocated s |}.

Definition set_executions (inner : option nat) (l : list invocation)
    (s : ExecSubject) :=
  {| self := self s; _executor := _executor s; _error := _error s;
     _loading := _loading s; innerSubscription := inner;
     executions := l; allocated := allocated s |}.

Definition set_allocated (n : nat) (s : ExecSubject) :=
  {| self := self s; _executor := _executor s; _error := _error s;
     _loading := _loading s; innerSubscription := innerSubscription s;
     executions := executions s; allocated := n |}.

(** [new ExecSubject(_executor, _initialValue, _error, _loading)];
    [init()] only builds the pipeline. *)
Definition new_ExecSubject (_executor : Executor) (_initialValue : value)
    (_error _loading : option (BehaviorSubject (list value))) : ExecSubject :=
  {| self := new_BehaviorSubject _initialValue;
     _executor := _executor; _error := _error; _loading := _loading;
     innerSubscription := None; executions := []; allocated := 0 |}.

(** [export function exec(exec, initialValue, error, loading)] *)
Definition exec_factory (exec : Executor) (initialValue : value)
    (error loading : option (BehaviorSubject (list value))) : ExecSubject :=
  new_ExecSubject exec initialValue error loading.

(** [this._loading && this._loading.next(b)] *)
Definition notify_loading (b : bool) (s : ExecSubject) : ExecSubject :=
  match _loading s with
  | Some l => set_loading (Some (next (VBool b) l)) s
  | None => s
  end.

(** The callback of [tap] in [init]. *)
Definition tap (error : value) (s : ExecSubject) : ExecSubject :=
  let s1 := notify_loading false s in
  match _error s1 with
  | Some e =>
      if instanceof_Error error
      then set_error (Some (next error e)) s1
      else s1
  | None => s1
  end.

(** [filter(result => !(result instanceof Error))] *)
Definition filter_ (result : value) : bool := negb (instanceof_Error result).

(** [performExec]: [exec(args).pipe(catchError(err => of(new Error(err))))].
    What the piped production sends for a notification of the executor's
    production: a raise is replaced by what [of(new Error(err))] sends, the
    rest is passed on.  The second component is the allocation count. *)
Definition performExec (n : notification) (allocated : nat)
    : list notification * nat :=
  match n with
  | Raise err => (now (of_ (new_Error allocated err)), S allocated)
  | _ => ([n], allocated)
  end.

(** What [init] does with a notification of the inner production that
    [switchMap] is subscribed to.  A value goes through [tap], [filter],
    [share] (one subscriber: nothing to add) and
    [subscribe(val => this.next(val))]; a completion of the inner production
    closes the inner subscription and is not passed on.  ([performExec]
    sends no raise.) *)
Definition init (n : notification) (s : ExecSubject) : ExecSubject * bool :=
  match n with
  | Next val =>
      let s1 := tap val s in
      (if filter_ val then set_self (next val (self s1)) s1 else s1, false)
  | Raise _ => (s, true)
  | Complete => (s, true)
  end.

(** The inner subscriber of [switchMap(args => this.performExec(..))]. *)
Definition switchMap (n : notification) (s : ExecSubject)
    : ExecSubject * bool :=
  let '(ns, a) := performExec n (allocated s) in
  drain init ns (set_allocated a s).

(** Unsubscribing closes the subscriber; the production may go on. *)
Definition close (inv : invocation) : invocation :=
  {| args := args inv; pending := pending inv; closed := true |}.

(** [switchMap] unsubscribes from the production it is subscribed to. *)
Definition unsubscribe (inner : option nat) (l : list invocation)
    : list invocation :=
  match inner with
  | Some i => alter close i l
  | None => l
  end.

(** [exec(args)] *)
Definition exec (args : value) (s : ExecSubject) : ExecSubject :=
  let s1 := notify_loading true s in
  (* this._executionStream.next(args): switchMap calls the executor, drops
     the previous inner subscription and subscribes to the new production *)
  let p := _executor s1 args in
  let s2 :=
    set_executions None
      (unsubscribe (innerSubscription s1) (executions s1)) s1 in
  let '(s3, stop) := drain switchMap (now p) s2 in
  set_executions (Some (length (executions s3)))
    (executions s3 ++ [{| args := args; pending := later p; closed := stop |}])
    s3.

(** The environment lets the production of call [i] send its next
    notification to the object. *)
Definition settle (i : nat) (s : ExecSubject) : ExecSubject :=
  match executions s !! i with
  | Some inv =>
      match pending inv with
      | [] => s
      | n :: rest =>
          if closed inv
          then set_executions (innerSubscription s)
                 (<[i := {| args := args inv; pending := rest;
                            closed := true |}]> (executions s)) s
          else
            let '(s', stop) := switchMap n s in
            set_executions (innerSubscription s')
              (<[i := {| args := args inv; pending := rest;
                         closed := stop |}]> (executions s')) s'
      end
  | None => s
  end.

Inductive command :=
| Exec (args : value)
| Settle (i : nat).

Definition exec_step (s : ExecSubject) (c : command) : ExecSubject :=
  match c with
  | Exec args => exec args s
  | Settle i => settle i s
  end.

(** Every step of the three variants is one of these on the closure. *)
Inductive world_action (O : Type) :=
| WDeliver (i : nat)
| WExec (exec : Executor) (execArgs : value)
| WAttach (o : O).
Arguments WDeliver {O} _.
Arguments WExec {O} _ _.
Arguments WAttach {O} _.

Definition world_step {O : Type} `{Observer O} (w : world O)
    (a : world_action O) : world O :=
  match a with
  | WDeliver i => deliver i w
  | WExec exec execArgs => execAndForward exec execArgs w
  | WAttach o => attach o w
  end.


(** The subscriber of call [i] is closed. *)
Definition closed_at {O : Type} (i : nat) (w : world O) : Prop :=
  exists inv, invocations w !! i = Some inv /\ closed inv = true.


(** What an observer of an [execAlways] stream has received: possibly the
    initial value first, and then only values that are not [===] to it. *)
Definition initial_first (v0 : value) (o : piped) : Prop :=
  exists rest,
    (received o = v0 :: rest \/ received o = rest) /\
    Forall (fun v => strict_equal v v0 = false) rest.

(** The subscriber of an observer of [execAlways(exec, v0)] while the
    subject holds [cur]. *)
Definition tracks (v0 cur : value) (o : piped) : Prop :=
  initialValue o = v0 /\ key o = Some cur /\ initial_first v0 o.

Definition always_inv (v0 : value) (w : world piped) : Prop :=
  Forall (tracks v0 (_value (subject w))) (observers (subject w)).

(** The values a production can send. *)
Definition emissions (p : production) : list value :=
  omap (fun n => match n with Next v => Some v | _ => None end)
    (now p ++ later p).

(** The inner subscriber of call [i] is closed. *)
Definition inner_closed (i : nat) (s : ExecSubject) : Prop :=
  exists inv, executions s !! i = Some inv /\ closed inv = true.

(** [switchMap] listens to at most one production: a call whose subscriber
    is open is the one [innerSubscription] names. *)
Definition switched (s : ExecSubject) : Prop :=
  forall j inv,
    executions s !! j = Some inv -> closed inv = false ->
    innerSubscription s = Some j.

(** The object takes an [exec] whose production sends a value that is not an
    error, at once or later: the value becomes the public value, loading
    ends false and the error channel is left alone. *)
Definition accepts (s : ExecSubject) : Prop :=
  forall b x,
    instanceof_Error x = false ->
    (forall rest,
       now (_executor s b) = Next x :: Complete :: rest ->
       getValue (self (exec b s)) = x /\
       _loading (exec b s) =
         next (VBool false) <$> (next (VBool true) <$> _loading s) /\
       _error (exec b s) = _error s) /\
    (forall rest,
       now (_executor s b) = [] ->
       later (_executor s b) = Next x :: rest ->
       let t := settle (length (executions s)) (exec b s) in
       getValue (self t) = x /\
       _loading t = next (VBool false) <$> (next (VBool true) <$> _loading s) /\
       _error t = _error s).

(** Every open subscriber listens to a production that can only send
    values of [p]. *)
Definition awaits (p : production) (s : ExecSubject) : Prop :=
  forall j inv,
    executions s !! j = Some inv -> closed inv = false ->
    forall v, Next v ∈ pending inv -> v ∈ emissions p.

(** The object with the record of call [i] blanked: everything but what the
    production of call [i] has still to send. *)
Definition blank : invocation :=
  {| args := VUndefined; pending := []; closed := true |}.

Definition forget (i : nat) (s : ExecSubject) : ExecSubject :=
  set_executions (innerSubscription s) (<[i := blank]> (executions s)) s.

(** The commands without the notifications of call [i]. *)
Fixpoint without (i : nat) (cs : list command) : list command :=
  match cs with
  | [] => []
  | Settle j :: rest =>
      if decide (j = i) then without i rest else Settle j :: without i rest
  | Exec a :: rest => Exec a :: without i rest
  end.

(** [b'] is [b] after [next] was called with the values [extra], in that
    order: every recording observer has received them after what it had,
    and the last of them, if any, is the value held. *)
Definition sent (extra : list value) (b b' : BehaviorSubject (list value))
    : Prop :=
  observers b' = (fun seen => seen ++ extra) <$> observers b /\
  _value b' = default (_value b) (last extra).

(** The same for a channel the caller may have left out. *)
Definition option_sent (extra : list value)
    (c c' : option (BehaviorSubject (list value))) : Prop :=
  match c, c' with
  | Some b, Some b' => sent extra b b'
  | None, None => True
  | _, _ => False
  end.


(** Every open forwarding subscriber listens to a production that can only
    send values of [p]. *)
Definition forwards_of (p : production) {O : Type} (w : world O) : Prop :=
  forall j inv,
    invocations w !! j = Some inv -> closed inv = false ->
    forall v, Next v ∈ pending inv -> v ∈ emissions p.

(** Between [s] and [s'] the pipeline has sent [pub] to the object itself,
    [err] to the error channel and [load] to the loading channel. *)
Definition streams (pub err load : list value) (s s' : ExecSubject) : Prop :=
  sent pub (self s) (self s') /\
  option_sent err (_error s) (_error s') /\
  option_sent load (_loading s) (_loading s').

(** * Facts *)

(** ** The forwarding subscriber *)

Section ForwardingFacts.
Context {O : Type} `{Observer O}.
Implicit Types (w : world O) (n : notification) (ns : list notification).

Lemma forward_invocations n w : invocations (forward n w).1 = invocations w.
Proof. by destruct n. Qed.

Lemma forward_journal n w : journal (forward n w).1 = journal w.
Proof. by destruct n. Qed.

Lemma drain_forward_invocations ns w :
  invocations (drain forward ns w).1 = invocations w.
Proof.
  revert w. induction ns as [|n ns IH]; intros w; simpl; [done|].
  pose proof (forward_invocations n w) as Hn.
  destruct (forward n w) as [w' stop]; simpl in *.
  destruct stop; simpl; [done|]. by rewrite IH.
Qed.

Lemma drain_forward_journal ns w :
  journal (drain forward ns w).1 = journal w.
Proof.
  revert w. induction ns as [|n ns IH]; intros w; simpl; [done|].
  pose proof (forward_journal n w) as Hn.
  destruct (forward n w) as [w' stop]; simpl in *.
  destruct stop; simpl; [done|]. by rewrite IH.
Qed.

Lemma execAndForward_journal exec execArgs w :
  journal (execAndForward exec execArgs w) = journal w ++ [Called execArgs].
Proof.
  unfold execAndForward.
  match goal with |- context [drain forward ?ns ?w0] =>
    pose proof (drain_forward_journal ns w0) as Hj;
    destruct (drain forward ns w0) as [w' stop] end.
  done.
Qed.

Lemma execAndForward_invocations exec execArgs w :
  exists stop,
    invocations (execAndForward exec execArgs w) =
    invocations w ++
      [{| args := execArgs; pending := later (exec execArgs);
          closed := stop |}].
Proof.
  unfold execAndForward.
  match goal with |- context [drain forward ?ns ?w0] =>
    pose proof (drain_forward_invocations ns w0) as Hi;
    destruct (drain forward ns w0) as [w' stop] end.
  exists stop. simpl in *. by rewrite Hi.
Qed.

Lemma execAndForward_async exec execArgs w :
  now (exec execArgs) = [] ->
  execAndForward exec execArgs w =
  {| subject := subject w;
     invocations := invocations w ++
       [{| args := execArgs; pending := later (exec execArgs);
           closed := false |}];
     unhandled := unhandled w;
     journal := journal w ++ [Called execArgs] |}.
Proof. intros Hnow. unfold execAndForward. by rewrite Hnow. Qed.

Lemma deliver_journal i w : journal (deliver i w) = journal w.
Proof.
  unfold deliver. destruct (invocations w !! i) as [inv|]; [|done].
  destruct (pending inv) as [|n rest]; [done|].
  destruct (closed inv); [done|].
  pose proof (forward_journal n w) as Hn.
  by destruct (forward n w) as [w' stop].
Qed.

Lemma deliver_args i w :
  args <$> invocations (deliver i w) = args <$> invocations w.
Proof.
  unfold deliver. destruct (invocations w !! i) as [inv|] eqn:Hi; [|done].
  destruct (pending inv) as [|n rest]; [done|].
  destruct (closed inv); simpl.
  - rewrite list_fmap_insert. simpl. apply list_insert_id.
    by rewrite list_lookup_fmap, Hi.
  - pose proof (forward_invocations n w) as Hn.
    destruct (forward n w) as [w' stop]; simpl in *.
    rewrite list_fmap_insert, Hn. simpl. apply list_insert_id.
    by rewrite list_lookup_fmap, Hi.
Qed.

(** Delivering to a closed subscriber only consumes the notification. *)
Lemma deliver_closed i w inv :
  invocations w !! i = Some inv -> closed inv = true ->
  subject (deliver i w) = subject w /\
  unhandled (deliver i w) = unhandled w /\
  exists inv', invocations (deliver i w) !! i = Some inv' /\
               closed inv' = true.
Proof.
  intros Hi Hc. unfold deliver. rewrite Hi.
  destruct (pending inv) as [|n rest]; [by eauto|].
  rewrite Hc. simpl. split; [done|]. split; [done|].
  exists {| args := args inv; pending := rest; closed := true |}.
  split; [|done]. apply list_lookup_insert_eq. by eapply lookup_lt_Some.
Qed.

Lemma deliver_keeps_closed i j w : closed_at i w -> closed_at i (deliver j w).
Proof.
  intros (inv & Hi & Hc). destruct (decide (j = i)) as [->|Hne].
  - destruct (deliver_closed i w inv Hi Hc) as (_ & _ & inv' & ? & ?).
    by exists inv'.
  - exists inv. split; [|done]. unfold deliver.
    destruct (invocations w !! j) as [invj|] eqn:Hj; [|done].
    destruct (pending invj) as [|n rest]; [done|].
    destruct (closed invj); simpl.
    + by rewrite list_lookup_insert_ne.
    + pose proof (forward_invocations n w) as Hn.
      destruct (forward n w) as [w' stop]; simpl in *.
      rewrite list_lookup_insert_ne by done. by rewrite Hn.
Qed.

Lemma world_step_keeps_closed i a w :
  closed_at i w -> closed_at i (world_step w a).
Proof.
  destruct a as [j|exec execArgs|o]; simpl.
  - apply deliver_keeps_closed.
  - intros (inv & Hi & Hc).
    destruct (execAndForward_invocations exec execArgs w) as [stop Hs].
    exists inv. split; [|done]. rewrite Hs.
    by apply lookup_app_l_Some.
  - done.
Qed.

Lemma world_steps_keep_closed i acts w :
  closed_at i w -> closed_at i (foldl world_step w acts).
Proof.
  revert w. induction acts as [|a acts IH]; intros w Hc; simpl; [done|].
  by apply IH, world_step_keeps_closed.
Qed.

(** A value sent to an open subscriber becomes the value of the subject
    and goes to every observer. *)
Lemma deliver_value i w inv x rest :
  invocations w !! i = Some inv -> closed inv = false ->
  pending inv = Next x :: rest ->
  subject (deliver i w) = next x (subject w).
Proof.
  intros Hi Hc Hp. unfold deliver. by rewrite Hi, Hp, Hc.
Qed.
End ForwardingFacts.

(** ** execAndForward does not catch *)

(** C8. In [execAlways], [execOnce] and [execControlled] every production is
    subscribed to by [execAndForward], whose subscriber has no error handler.
    When the production of an open call raises, nothing is sent to the
    subject (value and observers are what they were), the error goes to the
    host as unhandled, and the subscriber is closed: whatever happens next,
    a notification of that call leaves the subject as it is.  The same holds
    when the production raises while [execAndForward] subscribes to it. *)
Theorem C8_execAndForward_does_not_catch {O : Type} `{Observer O}
    (w : world O) (i : nat) (inv : invocation) (err : value)
    (rest : list notification) :
  invocations w !! i = Some inv ->
  closed inv = false ->
  pending inv = Raise err :: rest ->
  (subject (deliver i w) = subject w /\
   unhandled (deliver i w) = unhandled w ++ [err] /\
   invocations (deliver i w) !! i =
     Some {| args := args inv; pending := rest; closed := true |} /\
   forall acts : list (world_action O),
     let w' := foldl world_step (deliver i w) acts in
     closed_at i w' /\
     subject (deliver i w') = subject w' /\
     unhandled (deliver i w') = unhandled w') /\
  (forall exec execArgs err' rest',
     now (exec execArgs) = Raise err' :: rest' ->
     let w' := execAndForward exec execArgs w in
     subject w' = subject w /\
     unhandled w' = unhandled w ++ [err'] /\
     closed_at (length (invocations w)) w').
Proof.
  intros Hi Hc Hp. split.
  - assert (Hd : deliver i w =
      set_invocation i {| args := args inv; pending := rest; closed := true |}
        {| subject := subject w; invocations := invocations w;
           unhandled := unhandled w ++ [err]; journal := journal w |}).
    { unfold deliver. by rewrite Hi, Hp, Hc. }
    assert (Hl : invocations (deliver i w) !! i =
      Some {| args := args inv; pending := rest; closed := true |}).
    { rewrite Hd. simpl. apply list_lookup_insert_eq.
      by eapply lookup_lt_Some. }
    split; [by rewrite Hd|]. split; [by rewrite Hd|]. split; [done|].
    intros acts w'.
    assert (Hcl : closed_at i w').
    { apply world_steps_keep_closed. eexists. split; [exact Hl|done]. }
    split; [done|]. destruct Hcl as (inv' & Hi' & Hc').
    destruct (deliver_closed i w' inv' Hi' Hc') as (? & ? & _). done.
  - intros exec execArgs err' rest' Hnow w'. subst w'.
    unfold execAndForward. rewrite Hnow. simpl.
    split; [done|]. split; [done|].
    eexists. split; [apply list_lookup_middle; reflexivity|done].
Qed.

(** The theorem at a production that sends a value, raises and goes on
    sending. *)
Lemma C8_witness :
  let E : Executor := fun _ =>
    {| now := []; later := [Next (VNum 1); Raise (VStr "boom"); Next (VNum 2)] |} in
  let w := deliver 0 (execOnce (O := list value) E (VNum 0)) in
  getValue (subject (deliver 0 w)) = VNum 1 /\
  unhandled (deliver 0 w) = [VStr "boom"] /\
  getValue (subject (deliver 0 (deliver 0 w))) = VNum 1.
Proof.
  intros E w.
  assert (Hi : invocations w !! 0%nat =
    Some {| args := VUndefined;
            pending := [Raise (VStr "boom"); Next (VNum 2)];
            closed := false |}) by reflexivity.
  destruct (C8_execAndForward_does_not_catch w 0
              _ (VStr "boom") [Next (VNum 2)] Hi eq_refl eq_refl)
    as [(Hs & Hu & _ & Hafter) _].
  split; [exact (f_equal getValue Hs)|]. split; [exact Hu|].
  destruct (Hafter []) as (_ & Hs' & _).
  exact (f_equal getValue (eq_trans Hs' Hs)).
Defined.

(** ** execOnce *)

Lemma once_step_journal w o : journal (once_step w o) = journal w.
Proof. destruct o; simpl; [apply deliver_journal|done]. Qed.

Lemma once_step_args w o :
  args <$> invocations (once_step w o) = args <$> invocations w.
Proof. destruct o; simpl; [apply deliver_args|done]. Qed.

Lemma once_steps_calls w steps :
  journal (foldl once_step w steps) = journal w /\
  args <$> invocations (foldl once_step w steps) = args <$> invocations w.
Proof.
  revert w. induction steps as [|o steps IH]; intros w; simpl; [done|].
  destruct (IH (once_step w o)) as [-> ->].
  by rewrite once_step_journal, once_step_args.
Qed.

(** [k] observers subscribing in a row each receive the current value. *)
Lemma once_observers (w : world (list value)) (k : nat) :
  foldl once_step w (replicate k Observe) =
  {| subject := {| _value := _value (subject w);
                   observers := observers (subject w) ++
                                replicate k [_value (subject w)] |};
     invocations := invocations w;
     unhandled := unhandled w;
     journal := journal w |}.
Proof.
  revert w. induction k as [|k IH]; intros w; simpl.
  - rewrite app_nil_r. by destruct w as [[] ? ? ?].
  - rewrite IH. simpl. unfold subscribe. simpl.
    by rewrite <- app_assoc.
Qed.

(** C4, the claim as stated fails: an executor whose production sends its
    value while it is subscribed to, as [of(5)] does, has forwarded it when
    [execOnce] returns, so the container then holds 5 and not the initial
    value 0. *)
Lemma C4_counterexample :
  getValue (subject (execOnce (O := list value)
                       (fun _ => of_ (VNum 5)) (VNum 0))) = VNum 5 /\
  ~ (forall (E : Executor) (v0 : value),
       getValue (subject (execOnce (O := list value) E v0)) = v0).
Proof.
  split; [reflexivity|].
  intros Hall. specialize (Hall (fun _ => of_ (VNum 5)) (VNum 0)).
  discriminate Hall.
Qed.

(** C4, amended.  For every executor whose production sends nothing while
    it is subscribed to, and every initial value: the container returned by
    [execOnce] holds the initial value; once the first emission [x] of the
    production lands it holds [x], and the [k] observers that subscribed
    meanwhile have each received the initial value and then [x]; and whatever
    deliveries and subscriptions follow the construction, the executor has
    been called exactly once, without argument. *)
Theorem C4_execOnce (E : Executor) (v0 : value) :
  (now (E VUndefined) = [] ->
   getValue (subject (execOnce (O := list value) E v0)) = v0 /\
   forall x rest k,
     later (E VUndefined) = Next x :: rest ->
     let w := foldl once_step (execOnce E v0)
                (replicate k Observe ++ [Deliver 0]) in
     getValue (subject w) = x /\
     observers (subject w) = replicate k [v0; x]) /\
  (forall steps,
     let w := foldl once_step (execOnce E v0) steps in
     journal w = [Called VUndefined] /\
     args <$> invocations w = [VUndefined]).
Proof.
  split.
  - intros Hnow.
    assert (Hw : execOnce (O := list value) E v0 =
      {| subject := {| _value := v0; observers := [] |};
         invocations := [{| args := VUndefined;
                            pending := later (E VUndefined);
                            closed := false |}];
         unhandled := []; journal := [Called VUndefined] |}).
    { unfold execOnce. by rewrite execAndForward_async. }
    split; [by rewrite Hw|].
    intros x rest k Hlater w. subst w.
    rewrite foldl_app, once_observers, Hw. simpl.
    unfold deliver. simpl. rewrite Hlater. simpl.
    split; [done|]. unfold observer_next, recorder.
    rewrite fmap_replicate. done.
  - intros steps w. subst w.
    destruct (once_steps_calls (execOnce E v0) steps) as [-> ->].
    unfold execOnce. rewrite execAndForward_journal.
    destruct (execAndForward_invocations (O := list value)
                E VUndefined (new_world v0)) as [stop ->].
    done.
Qed.

Lemma C4_witness :
  let E : Executor := fun _ =>
    {| now := []; later := [Next (VNum 7); Complete] |} in
  getValue (subject (execOnce (O := list value) E (VNum 0))) = VNum 0 /\
  getValue (subject (foldl once_step (execOnce E (VNum 0))
                       [Observe; Observe; Deliver 0])) = VNum 7.
Proof.
  intros E.
  destruct (proj1 (C4_execOnce E (VNum 0)) eq_refl) as (H0 & H1).
  split; [exact H0|].
  exact (proj1 (H1 (VNum 7) [Complete] 2%nat eq_refl)).
Defined.

(** ** execControlled *)





(** ** execAlways *)

Lemma strict_equal_eq a b : strict_equal a b = true -> a = b.
Proof.
  unfold strict_equal. destruct a; try discriminate;
    intros Heq; by apply bool_decide_eq_true in Heq.
Qed.

(** After [next(val)] the subscriber remembers [val]. *)
Lemma piped_key val (o : piped) : key (observer_next val o) = Some val.
Proof.
  unfold observer_next, piped_observer, distinctUntilChanged.
  destruct (key o) as [k|] eqn:Hk; simpl; [|done].
  destruct (strict_equal k val) eqn:Heq; simpl; [|done].
  apply strict_equal_eq in Heq. by rewrite Hk, Heq.
Qed.

(** A value the subscriber has just let through is not delivered again. *)
Lemma piped_repeat x y (o : piped) :
  strict_equal x y = true ->
  observer_next y (observer_next x o) = observer_next x o.
Proof.
  intros Heq. pose proof (piped_key x o) as Hk.
  revert Hk. generalize (observer_next x o). intros o1 Hk.
  unfold observer_next, piped_observer, distinctUntilChanged.
  by rewrite Hk, Heq.
Qed.

(** One [next] delivers at most the value itself, and nothing when the
    value is [===] to the initial one. *)
Lemma piped_received val (o : piped) :
  received (observer_next val o) = received o \/
  (received (observer_next val o) = received o ++ [val] /\
   strict_equal val (initialValue o) = false).
Proof.
  unfold observer_next, piped_observer.
  destruct (distinctUntilChanged (key o) val); simpl; [|by left].
  destruct (strict_equal val (initialValue o)); simpl; [by left|by right].
Qed.

Lemma piped_initialValue val (o : piped) :
  initialValue (observer_next val o) = initialValue o.
Proof.
  unfold observer_next, piped_observer.
  by destruct (distinctUntilChanged (key o) val).
Qed.

Lemma tracks_next v0 val (o : piped) :
  initialValue o = v0 -> initial_first v0 o ->
  tracks v0 val (observer_next val o).
Proof.
  intros Hv0 (rest & Hrec & Hrest). split; [|split].
  - by rewrite piped_initialValue.
  - apply piped_key.
  - unfold initial_first.
    destruct (piped_received val o) as [->|[-> Hne]].
    + by exists rest.
    + rewrite Hv0 in Hne. exists (rest ++ [val]). split.
      * destruct Hrec as [->| ->]; [by left|by right].
      * apply Forall_app. split; [done|]. by apply Forall_singleton.
Qed.

Lemma always_inv_forward v0 n w :
  always_inv v0 w -> always_inv v0 (forward n w).1.
Proof.
  destruct n as [val| |]; simpl; [|done..].
  unfold always_inv. simpl. intros Hinv.
  apply Forall_fmap. eapply Forall_impl; [exact Hinv|].
  intros o (Hv0 & _ & Hfirst). simpl. by eapply tracks_next.
Qed.

Lemma always_inv_drain v0 ns w :
  always_inv v0 w -> always_inv v0 (drain forward ns w).1.
Proof.
  revert w. induction ns as [|n ns IH]; intros w Hinv; simpl; [done|].
  pose proof (always_inv_forward v0 n w Hinv) as Hn.
  destruct (forward n w) as [w' stop]; simpl in *.
  destruct stop; [done|]. by apply IH.
Qed.

Lemma always_inv_execAndForward v0 exec execArgs w :
  always_inv v0 w -> always_inv v0 (execAndForward exec execArgs w).
Proof.
  intros Hinv. unfold execAndForward.
  match goal with |- context [drain forward ?ns ?w0] =>
    pose proof (always_inv_drain v0 ns w0 Hinv) as Hd;
    destruct (drain forward ns w0) as [w' stop] end.
  exact Hd.
Qed.

Lemma always_inv_deliver v0 i w :
  always_inv v0 w -> always_inv v0 (deliver i w).
Proof.
  intros Hinv. unfold deliver.
  destruct (invocations w !! i) as [inv|]; [|done].
  destruct (pending inv) as [|n rest]; [done|].
  destruct (closed inv); [done|].
  pose proof (always_inv_forward v0 n w Hinv) as Hn.
  by destruct (forward n w) as [w' stop].
Qed.

Lemma always_inv_subscribe exec v0 w :
  always_inv v0 w -> always_inv v0 (execAlways_subscribe exec v0 w).
Proof.
  intros Hinv. unfold execAlways_subscribe, attach, always_inv. simpl.
  apply Forall_app. split; [by apply always_inv_execAndForward|].
  apply Forall_singleton. eapply tracks_next; [done|]. simpl.
  destruct (strict_equal (getValue (subject w)) v0).
  - exists []. split; [by left|done].
  - exists []. split; [by right|done].
Qed.

Lemma always_inv_steps exec v0 steps w :
  always_inv v0 w -> always_inv v0 (foldl (always_step exec v0) w steps).
Proof.
  revert w. induction steps as [|o steps IH]; intros w Hinv; simpl; [done|].
  apply IH. destruct o; simpl;
    [by apply always_inv_deliver|by apply always_inv_subscribe].
Qed.






(** C6.  When a production sends two values in a row that are [===], the
    second reaches no subscriber of [execAlways]: every subscriber is after
    both what it was after the first, and has received at most the one
    value.  A subscriber never passes on a value [===] to the initial one,
    so what an observer has received is, at any time, possibly the initial
    value first (delivered when it subscribed) and then only values that are
    not [===] to it. *)
Theorem C6_execAlways_distinct (E : Executor) (v0 : value) :
  (forall (w : world piped) i inv x y rest,
     invocations w !! i = Some inv ->
     closed inv = false ->
     pending inv = Next x :: Next y :: rest ->
     strict_equal x y = true ->
     observers (subject (deliver i (deliver i w))) =
       observers (subject (deliver i w)) /\
     Forall2 (fun o o2 => received o2 = received o \/
                          received o2 = received o ++ [x])
       (observers (subject w))
       (observers (subject (deliver i (deliver i w))))) /\
  (forall (o : piped) val,
     strict_equal val (initialValue o) = true ->
     received (observer_next val o) = received o) /\
  (forall steps,
     Forall (initial_first v0)
       (observers (subject
          (foldl (always_step E v0) (execAlways E v0) steps)))).
Proof.
  split; [|split].
  - intros w i inv x y rest Hi Hc Hp Heq.
    assert (H1 : deliver i w =
      set_invocation i
        {| args := args inv; pending := Next y :: rest; closed := false |}
        {| subject := next x (subject w); invocations := invocations w;
           unhandled := unhandled w; journal := journal w |}).
    { unfold deliver. by rewrite Hi, Hp, Hc. }
    assert (H2 : subject (deliver i (deliver i w)) =
                 next y (next x (subject w))).
    { rewrite (deliver_value i (deliver i w)
        {| args := args inv; pending := Next y :: rest; closed := false |}
        y rest); [by rewrite H1| |done|done].
      rewrite H1. simpl. apply list_lookup_insert_eq.
      by eapply lookup_lt_Some. }
    rewrite H2, H1. simpl. rewrite <- list_fmap_compose.
    assert (Hsame : (observer_next y ∘ observer_next x) <$>
                      observers (subject w) =
                    observer_next x <$> observers (subject w)).
    { apply list_fmap_ext. intros _ o _. simpl. by apply piped_repeat. }
    rewrite Hsame. split; [done|].
    apply Forall2_fmap_r, Forall_Forall2_diag, Forall_forall.
    intros o _.
    destruct (piped_received x o) as [Hr|[Hr _]]; [left|right]; exact Hr.
  - intros o val Heq.
    destruct (piped_received val o) as [Hr|[_ Hne]]; [done|congruence].
  - intros steps.
    assert (Hinv : always_inv v0
              (foldl (always_step E v0) (execAlways E v0) steps)).
    { apply always_inv_steps. apply Forall_nil_2. }
    eapply Forall_impl; [exact Hinv|].
    by intros o (_ & _ & Hf).
Qed.

Lemma C6_witness :
  let E : Executor := fun _ =>
    {| now := []; later := [Next (VNum 4); Next (VNum 4); Next (VNum 0)] |} in
  let w := foldl (always_step E (VNum 0)) (execAlways E (VNum 0)) [Observe] in
  received <$> observers (subject (deliver 0 (deliver 0 w))) =
  [[VNum 0; VNum 4]].
Proof.
  intros E w.
  assert (Hi : invocations w !! 0%nat =
    Some {| args := VUndefined;
            pending := [Next (VNum 4); Next (VNum 4); Next (VNum 0)];
            closed := false |}) by reflexivity.
  destruct (proj1 (C6_execAlways_distinct E (VNum 0))
              w 0%nat _ (VNum 4) (VNum 4) [Next (VNum 0)]
              Hi eq_refl eq_refl eq_refl) as [Hsame _].
  exact (f_equal (fmap received) Hsame).
Defined.

(** ** ExecSubject *)

Arguments switchMap : simpl never.

Lemma drain_cons {S : Type} (h : notification -> S -> S * bool) n ns s :
  drain h (n :: ns) s =
  if (h n s).2 then ((h n s).1, true) else drain h ns (h n s).1.
Proof. simpl. by destruct (h n s) as [s' []]. Qed.

(** Projections of an updated record, the pipeline left folded. *)
Ltac fields :=
  cbn [fst snd set_executions self _executor _error _loading
       innerSubscription executions allocated].

Ltac pipeline :=
  unfold switchMap, performExec, init, tap, notify_loading, filter_, of_,
    new_Error, set_self, set_error, set_loading, set_allocated, set_executions;
  simpl.

(** The pipeline reads and writes neither the record of the calls nor the
    inner subscription. *)
Lemma switchMap_oblivious n k l s :
  switchMap n (set_executions k l s) =
  (set_executions k l (switchMap n s).1, (switchMap n s).2).
Proof.
  destruct s as [sf ex er lo inn exs al].
  destruct n as [val|err|]; [| |done].
  - pipeline. destruct lo as [lo|], er as [er|]; simpl;
      destruct (instanceof_Error val); done.
  - pipeline. destruct lo as [lo|], er as [er|]; done.
Qed.

Lemma drain_switchMap_oblivious ns k l s :
  drain switchMap ns (set_executions k l s) =
  (set_executions k l (drain switchMap ns s).1, (drain switchMap ns s).2).
Proof.
  revert s. induction ns as [|n ns IH]; intros s; simpl; [done|].
  rewrite switchMap_oblivious.
  destruct (switchMap n s) as [s' stop]; simpl.
  destruct stop; [done|]. apply IH.
Qed.

Lemma switchMap_executions n s :
  executions (switchMap n s).1 = executions s /\
  innerSubscription (switchMap n s).1 = innerSubscription s /\
  _executor (switchMap n s).1 = _executor s.
Proof.
  destruct s as [sf ex er lo inn exs al].
  destruct n as [val|err|]; [| |done].
  - pipeline. destruct lo as [lo|], er as [er|]; simpl;
      destruct (instanceof_Error val); done.
  - pipeline. destruct lo as [lo|], er as [er|]; done.
Qed.

Lemma drain_switchMap_executions ns s :
  executions (drain switchMap ns s).1 = executions s /\
  innerSubscription (drain switchMap ns s).1 = innerSubscription s /\
  _executor (drain switchMap ns s).1 = _executor s.
Proof.
  revert s. induction ns as [|n ns IH]; intros s; simpl; [done|].
  pose proof (switchMap_executions n s) as (He & Hi & Hx).
  destruct (switchMap n s) as [s' stop]; simpl in *.
  destruct stop; simpl; [done|].
  destruct (IH s') as (-> & -> & ->). done.
Qed.

Lemma notify_loading_oblivious b k l s :
  notify_loading b (set_executions k l s) =
  set_executions k l (notify_loading b s).
Proof. unfold notify_loading. simpl. by destruct (_loading s). Qed.

Lemma notify_loading_executions b s :
  executions (notify_loading b s) = executions s /\
  innerSubscription (notify_loading b s) = innerSubscription s /\
  _executor (notify_loading b s) = _executor s.
Proof. unfold notify_loading. by destruct (_loading s). Qed.

Lemma set_executions_twice k l k' l' s :
  set_executions k l (set_executions k' l' s) = set_executions k l s.
Proof. done. Qed.

Lemma length_unsubscribe inner l : length (unsubscribe inner l) = length l.
Proof. destruct inner; simpl; [apply length_alter|done]. Qed.

(** [exec] with the pipeline run apart from the record of the calls. *)
Lemma exec_eq a s :
  exec a s =
  set_executions (Some (length (executions s)))
    (unsubscribe (innerSubscription s) (executions s) ++
     [{| args := a; pending := later (_executor s a);
         closed := (drain switchMap (now (_executor s a))
                      (notify_loading true s)).2 |}])
    (drain switchMap (now (_executor s a)) (notify_loading true s)).1.
Proof.
  unfold exec.
  destruct (notify_loading_executions true s) as (-> & -> & ->).
  rewrite drain_switchMap_oblivious.
  destruct (drain switchMap (now (_executor s a)) (notify_loading true s))
    as [s3 stop]. simpl.
  by rewrite length_unsubscribe.
Qed.

(** [settle] likewise. *)
Lemma settle_eq i s :
  settle i s =
  match executions s !! i with
  | Some inv =>
      match pending inv with
      | [] => s
      | n :: rest =>
          if closed inv
          then set_executions (innerSubscription s)
                 (<[i := {| args := args inv; pending := rest;
                            closed := true |}]> (executions s)) s
          else set_executions (innerSubscription s)
                 (<[i := {| args := args inv; pending := rest;
                            closed := (switchMap n s).2 |}]> (executions s))
                 (switchMap n s).1
      end
  | None => s
  end.
Proof.
  unfold settle. destruct (executions s !! i) as [inv|]; [|done].
  destruct (pending inv) as [|n rest]; [done|].
  destruct (closed inv); [done|].
  destruct (switchMap_executions n s) as (He & Hi & _).
  destruct (switchMap n s) as [s' stop]. simpl in *. by rewrite He, Hi.
Qed.

Lemma unsubscribe_blank i inner b l :
  <[i := b]> (unsubscribe inner (<[i := b]> l)) =
  <[i := b]> (unsubscribe inner l).
Proof.
  destruct inner as [k|]; simpl; [|apply list_insert_insert_eq].
  rewrite !list_insert_alter. destruct (decide (k = i)) as [->|Hne].
  - rewrite !list_alter_alter_eq. by apply list_alter_ext.
  - rewrite (list_alter_alter_ne close (fun _ => b) l k i) by done.
    by rewrite list_alter_alter_eq.
Qed.

(** *** Closed subscribers stay closed *)

Lemma exec_keeps_closed i a s : inner_closed i s -> inner_closed i (exec a s).
Proof.
  intros (inv & Hi & Hc). rewrite exec_eq. unfold inner_closed. simpl.
  destruct (innerSubscription s) as [k|]; simpl.
  - destruct (decide (k = i)) as [->|Hne].
    + exists (close inv). split; [|done].
      apply lookup_app_l_Some. by rewrite list_lookup_alter_eq, Hi.
    + exists inv. split; [|done].
      apply lookup_app_l_Some. by rewrite list_lookup_alter_ne.
  - exists inv. split; [|done]. by apply lookup_app_l_Some.
Qed.

Lemma settle_keeps_closed i j s :
  inner_closed i s -> inner_closed i (settle j s).
Proof.
  intros (inv & Hi & Hc). rewrite settle_eq.
  destruct (executions s !! j) as [invj|] eqn:Hj; [|by exists inv].
  destruct (pending invj) as [|n rest]; [by exists inv|].
  pose proof (lookup_lt_Some _ _ _ Hj) as Hlt.
  destruct (decide (j = i)) as [->|Hne].
  - assert (invj = inv) as -> by congruence. rewrite Hc.
    eexists. split; [simpl; by apply list_lookup_insert_eq|done].
  - destruct (closed invj); exists inv; (split; [|done]); simpl;
      by rewrite list_lookup_insert_ne.
Qed.

(** *** A closed subscriber has no say *)

Lemma forget_set i k l s :
  forget i (set_executions k l s) = set_executions k (<[i := blank]> l) s.
Proof. done. Qed.

Lemma notify_loading_forget b i s :
  notify_loading b (forget i s) =
  set_executions (innerSubscription s) (<[i := blank]> (executions s))
    (notify_loading b s).
Proof. apply notify_loading_oblivious. Qed.

Lemma forget_exec i a s :
  inner_closed i s -> forget i (exec a s) = forget i (exec a (forget i s)).
Proof.
  intros (inv & Hi & Hc). pose proof (lookup_lt_Some _ _ _ Hi) as Hlt.
  rewrite !exec_eq.
  change (_executor (forget i s)) with (_executor s).
  change (innerSubscription (forget i s)) with (innerSubscription s).
  change (executions (forget i s)) with (<[i := blank]> (executions s)).
  rewrite notify_loading_forget, drain_switchMap_oblivious.
  cbn [fst snd]. rewrite !forget_set, set_executions_twice, length_insert.
  f_equal.
  rewrite !insert_app_l
    by (rewrite length_unsubscribe, ?length_insert; done).
  by rewrite unsubscribe_blank.
Qed.

Lemma forget_idem i s : forget i (forget i s) = forget i s.
Proof.
  unfold forget, set_executions. simpl.
  by rewrite list_insert_insert_eq.
Qed.

Lemma insert_absorb (i j : nat) (b x : invocation) (l : list invocation) :
  j <> i -> <[i := b]> (<[j := x]> (<[i := b]> l)) = <[i := b]> (<[j := x]> l).
Proof.
  intros Hne. rewrite (list_insert_insert_ne l j i) by done.
  apply list_insert_insert_eq.
Qed.

Lemma switchMap_forget n i s :
  switchMap n (forget i s) =
  (set_executions (innerSubscription s) (<[i := blank]> (executions s))
     (switchMap n s).1, (switchMap n s).2).
Proof. apply switchMap_oblivious. Qed.

Lemma forget_settle_other i j s :
  j <> i -> forget i (settle j s) = forget i (settle j (forget i s)).
Proof.
  intros Hne. rewrite !settle_eq.
  change (innerSubscription (forget i s)) with (innerSubscription s).
  change (executions (forget i s)) with (<[i := blank]> (executions s)).
  rewrite list_lookup_insert_ne by done.
  destruct (executions s !! j) as [inv|]; [|by rewrite forget_idem].
  destruct (pending inv) as [|n rest]; [by rewrite forget_idem|].
  destruct (closed inv).
  - rewrite !forget_set. unfold forget. rewrite set_executions_twice.
    f_equal. by rewrite insert_absorb.
  - rewrite switchMap_forget. cbn [fst snd].
    rewrite !forget_set, set_executions_twice. f_equal.
    by rewrite insert_absorb.
Qed.

Lemma forget_settle_same i s :
  inner_closed i s -> forget i (settle i s) = forget i s.
Proof.
  intros (inv & Hi & Hc). rewrite settle_eq, Hi.
  destruct (pending inv) as [|n rest]; [done|]. rewrite Hc.
  rewrite forget_set. unfold forget. by rewrite list_insert_insert_eq.
Qed.

Lemma forget_step i c s t :
  inner_closed i s -> inner_closed i t ->
  c <> Settle i ->
  forget i s = forget i t ->
  forget i (exec_step s c) = forget i (exec_step t c).
Proof.
  intros Hs Ht Hc Heq. destruct c as [a|j]; simpl.
  - rewrite (forget_exec i a s), (forget_exec i a t) by done.
    by rewrite Heq.
  - assert (j <> i) by congruence.
    rewrite (forget_settle_other i j s), (forget_settle_other i j t) by done.
    by rewrite Heq.
Qed.

Lemma forget_run i cs s t :
  inner_closed i s -> inner_closed i t ->
  forget i s = forget i t ->
  forget i (foldl exec_step s cs) =
  forget i (foldl exec_step t (without i cs)).
Proof.
  revert s t. induction cs as [|c cs IH]; intros s t Hs Ht Heq; simpl;
    [done|].
  destruct c as [a|j]; simpl.
  - apply IH; [by apply exec_keeps_closed..|].
    by apply (forget_step i (Exec a)).
  - destruct (decide (j = i)) as [->|Hne]; simpl.
    + apply IH; [by apply settle_keeps_closed|done|].
      by rewrite forget_settle_same.
    + apply IH; [by apply settle_keeps_closed..|].
      apply (forget_step i (Settle j)); [done..|congruence|done].
Qed.

(** *** switchMap listens to one production *)

Lemma unsubscribe_all_closed s j inv :
  switched s ->
  unsubscribe (innerSubscription s) (executions s) !! j = Some inv ->
  closed inv = true.
Proof.
  intros Hsw Hj. destruct (closed inv) eqn:Hc; [done|].
  destruct (innerSubscription s) as [k|] eqn:Hk; simpl in Hj.
  - destruct (decide (k = j)) as [->|Hne].
    + rewrite list_lookup_alter_eq in Hj.
      destruct (executions s !! j); by simplify_eq/=.
    + rewrite list_lookup_alter_ne in Hj by done.
      specialize (Hsw j inv Hj Hc). congruence.
  - specialize (Hsw j inv Hj Hc). congruence.
Qed.

Lemma exec_switched a s : switched s -> switched (exec a s).
Proof.
  intros Hsw j inv. rewrite exec_eq. simpl. intros Hj Hc.
  apply lookup_app_Some in Hj as [Hj|[Hge Hj]].
  - apply (unsubscribe_all_closed s j inv Hsw) in Hj. congruence.
  - rewrite length_unsubscribe in Hge, Hj.
    destruct (j - length (executions s))%nat eqn:Hd; [|done].
    f_equal. lia.
Qed.

Lemma settle_switched i s : switched s -> switched (settle i s).
Proof.
  intros Hsw j inv'. rewrite settle_eq.
  destruct (executions s !! i) as [inv|] eqn:Hi; [|apply Hsw].
  destruct (pending inv) as [|n rest]; [apply Hsw|].
  destruct (closed inv) eqn:Hci; simpl; intros Hj Hc.
  - destruct (decide (i = j)) as [->|Hne].
    + rewrite list_lookup_insert_eq in Hj by (by eapply lookup_lt_Some).
      by simplify_eq/=.
    + rewrite list_lookup_insert_ne in Hj by done. by apply (Hsw j inv').
  - destruct (decide (i = j)) as [->|Hne].
    + by apply (Hsw j inv).
    + rewrite list_lookup_insert_ne in Hj by done. by apply (Hsw j inv').
Qed.

Lemma new_ExecSubject_switched exec v0 error loading :
  switched (new_ExecSubject exec v0 error loading).
Proof. intros j inv Hj. done. Qed.

Lemma run_switched cs s : switched s -> switched (foldl exec_step s cs).
Proof.
  revert s. induction cs as [|c cs IH]; intros s Hsw; simpl; [done|].
  apply IH. destruct c; simpl; [by apply exec_switched|by apply settle_switched].
Qed.

(** *** Where the public value comes from *)

Lemma elem_of_emissions v p : v ∈ emissions p <-> Next v ∈ now p ++ later p.
Proof.
  unfold emissions. rewrite list_elem_of_omap. split.
  - intros (n & Hn & Hv). destruct n; by simplify_eq.
  - intros Hn. by exists (Next v).
Qed.

Lemma switchMap_value n s :
  self (switchMap n s).1 = self s \/
  exists v, n = Next v /\ getValue (self (switchMap n s).1) = v.
Proof.
  destruct s as [sf ex er lo inn exs al].
  destruct n as [val|err|]; [| |by left].
  - pipeline. destruct lo as [lo|], er as [er|]; simpl;
      destruct (instanceof_Error val); simpl; eauto.
  - pipeline. destruct lo as [lo|], er as [er|]; simpl; eauto.
Qed.

Lemma drain_switchMap_value ns s :
  self (drain switchMap ns s).1 = self s \/
  exists v, Next v ∈ ns /\ getValue (self (drain switchMap ns s).1) = v.
Proof.
  revert s. induction ns as [|n ns IH]; intros s; simpl; [by left|].
  pose proof (switchMap_value n s) as Hn.
  destruct (switchMap n s) as [s' stop]; simpl in *.
  assert (Hstep : self s' = self s \/
            exists v, Next v ∈ n :: ns /\ getValue (self s') = v).
  { destruct Hn as [Hn|(v & -> & Hv)]; [by left|right].
    exists v. split; [apply list_elem_of_here|done]. }
  destruct stop; simpl; [done|].
  destruct (IH s') as [Hs|(v & Hin & Hv)].
  - rewrite Hs. done.
  - right. exists v. split; [by apply list_elem_of_further|done].
Qed.

Lemma settle_awaits p v0 i s :
  awaits p s ->
  (getValue (self s) = v0 \/ getValue (self s) ∈ emissions p) ->
  awaits p (settle i s) /\
  (getValue (self (settle i s)) = v0 \/
   getValue (self (settle i s)) ∈ emissions p).
Proof.
  intros Haw Hval. rewrite settle_eq.
  destruct (executions s !! i) as [inv|] eqn:Hi; [|done].
  destruct (pending inv) as [|n rest] eqn:Hp; [done|].
  pose proof (lookup_lt_Some _ _ _ Hi) as Hlt.
  destruct (closed inv) eqn:Hc.
  - split; [|done]. intros j inv' Hj Hc' v Hv. simpl in Hj.
    destruct (decide (i = j)) as [->|Hne].
    + rewrite list_lookup_insert_eq in Hj by done. by simplify_eq/=.
    + rewrite list_lookup_insert_ne in Hj by done. by eapply Haw.
  - assert (Hsent : forall v, Next v ∈ n :: rest -> v ∈ emissions p).
    { intros v Hv. apply (Haw i inv Hi Hc). by rewrite Hp. }
    split.
    + intros j inv' Hj Hc' v Hv. simpl in Hj.
      destruct (decide (i = j)) as [->|Hne].
      * rewrite list_lookup_insert_eq in Hj by done. simplify_eq/=.
        apply Hsent. by apply list_elem_of_further.
      * rewrite list_lookup_insert_ne in Hj by done. by eapply Haw.
    + simpl. destruct (switchMap_value n s) as [Hs|(v & Hn & Hv)];
        [by rewrite Hs|].
      right. rewrite Hv. apply Hsent. rewrite Hn. apply list_elem_of_here.
Qed.

Lemma settles_awaits p v0 js s :
  awaits p s ->
  (getValue (self s) = v0 \/ getValue (self s) ∈ emissions p) ->
  getValue (self (foldl exec_step s (Settle <$> js))) = v0 \/
  getValue (self (foldl exec_step s (Settle <$> js))) ∈ emissions p.
Proof.
  revert s. induction js as [|j js IH]; intros s Haw Hval; simpl; [done|].
  destruct (settle_awaits p v0 j s Haw Hval) as [Haw' Hval'].
  by apply IH.
Qed.

Lemma exec_shape a s :
  innerSubscription (exec a s) = Some (length (executions s)) /\
  executions (exec a s) =
    unsubscribe (innerSubscription s) (executions s) ++
    [{| args := a; pending := later (_executor s a);
        closed := (drain switchMap (now (_executor s a))
                     (notify_loading true s)).2 |}] /\
  _executor (exec a s) = _executor s.
Proof.
  rewrite exec_eq. simpl. split; [done|]. split; [done|].
  destruct (drain_switchMap_executions (now (_executor s a))
              (notify_loading true s)) as (_ & _ & ->).
  by destruct (notify_loading_executions true s) as (_ & _ & ->).
Qed.

Lemma exec_async a s :
  now (_executor s a) = [] ->
  exec a s =
  set_executions (Some (length (executions s)))
    (unsubscribe (innerSubscription s) (executions s) ++
     [{| args := a; pending := later (_executor s a); closed := false |}])
    (notify_loading true s).
Proof. intros Hnow. rewrite exec_eq, Hnow. done. Qed.

Lemma notify_loading_self b s : self (notify_loading b s) = self s.
Proof. unfold notify_loading. by destruct (_loading s). Qed.

Lemma settle_executor i s : _executor (settle i s) = _executor s.
Proof.
  rewrite settle_eq. destruct (executions s !! i) as [inv|]; [|done].
  destruct (pending inv) as [|n rest]; [done|].
  destruct (closed inv); [done|]. fields.
  by destruct (switchMap_executions n s) as (_ & _ & ->).
Qed.

Lemma run_executor cs s : _executor (foldl exec_step s cs) = _executor s.
Proof.
  revert s. induction cs as [|c cs IH]; intros s; simpl; [done|].
  rewrite IH. destruct c as [a|i]; simpl.
  - by destruct (exec_shape a s) as (_ & _ & ->).
  - apply settle_executor.
Qed.

(** After [exec(a1); exec(a2)] the subscriber of the first call is closed,
    whatever its production has done. *)
Lemma superseded_closed s a1 a2 :
  inner_closed (length (executions s)) (exec a2 (exec a1 s)).
Proof.
  destruct (exec_shape a1 s) as (Hin1 & Hex1 & _).
  destruct (exec_shape a2 (exec a1 s)) as (_ & Hex2 & _).
  eexists. split.
  - rewrite Hex2, Hin1, Hex1. simpl.
    apply lookup_app_l_Some. rewrite list_lookup_alter_eq.
    rewrite lookup_app_r by (by rewrite length_unsubscribe).
    rewrite length_unsubscribe, Nat.sub_diag. reflexivity.
  - done.
Qed.

(** While only deliveries follow [exec(a1); exec(a2)], the first production
    having sent nothing at once, the public value is the earlier one or a
    value of the second production. *)
Lemma latest_value s a1 a2 js :
  switched s ->
  now (_executor s a1) = [] ->
  let t := foldl exec_step (exec a2 (exec a1 s)) (Settle <$> js) in
  getValue (self t) = getValue (self s) \/
  getValue (self t) ∈ emissions (_executor s a2).
Proof.
  intros Hsw Hnow t. subst t.
  destruct (exec_shape a1 s) as (_ & _ & Hx1).
  destruct (exec_shape a2 (exec a1 s)) as (_ & Hex2 & _).
  apply settles_awaits.
  - intros j inv Hj Hc v Hv. rewrite Hex2 in Hj.
    apply lookup_app_Some in Hj as [Hj|[_ Hj]].
    + apply unsubscribe_all_closed in Hj; [congruence|].
      by apply exec_switched.
    + destruct (j - _)%nat; [|done]. simplify_eq/=.
      apply elem_of_emissions, elem_of_app. right. by rewrite <- Hx1.
  - rewrite (exec_eq a2). fields.
    destruct (drain_switchMap_value (now (_executor (exec a1 s) a2))
                (notify_loading true (exec a1 s))) as [->|(v & Hv & ->)].
    + left. rewrite notify_loading_self, (exec_async a1 s) by done.
      fields. by rewrite notify_loading_self.
    + right. apply elem_of_emissions, elem_of_app. left.
      by rewrite <- Hx1.
Qed.

(** C1.  Take an object built by the constructor and driven by any
    commands.  When [exec(a1)] is followed by [exec(a2)] before the
    production for [a1] has sent anything, the subscriber of the first call
    is closed by the second call.  From then on, whatever is executed or
    delivered, the notifications of the first call change nothing but the
    record of what that production has still to send: the public value, the
    error channel and the loading channel are what they are when these
    notifications are left out, also when they come after those of the
    second call.  And while only deliveries follow, the public value is the
    one held before [exec(a1)] or a value sent by the production for
    [a2]. *)
Theorem C1_switch_to_latest (E : Executor) (v0 : value)
    (error loading : option (BehaviorSubject (list value)))
    (history : list command) (a1 a2 : value) :
  let s := foldl exec_step (new_ExecSubject E v0 error loading) history in
  let i1 := length (executions s) in
  let s2 := exec a2 (exec a1 s) in
  now (E a1) = [] ->
  inner_closed i1 s2 /\
  (forall cs,
     let t := foldl exec_step s2 cs in
     let t' := foldl exec_step s2 (without i1 cs) in
     forget i1 t = forget i1 t' /\
     self t = self t' /\ _error t = _error t' /\ _loading t = _loading t') /\
  (forall js,
     let t := foldl exec_step s2 (Settle <$> js) in
     getValue (self t) = getValue (self s) \/
     getValue (self t) ∈ emissions (E a2)).
Proof.
  intros s i1 s2 Hnow.
  assert (Hx : _executor s = E) by apply run_executor.
  assert (Hclosed : inner_closed i1 s2) by apply superseded_closed.
  split; [done|]. split.
  - intros cs t t'.
    assert (Hf : forget i1 t = forget i1 t') by by apply forget_run.
    split; [done|].
    split; [exact (f_equal self Hf)|].
    split; [exact (f_equal _error Hf)|exact (f_equal _loading Hf)].
  - intros js. rewrite <- Hx. apply latest_value.
    + apply run_switched, new_ExecSubject_switched.
    + by rewrite Hx.
Qed.

Lemma C1_witness :
  let E : Executor := fun a =>
    match a with
    | VNum 1 => {| now := []; later := [Next (VStr "first")] |}
    | _ => {| now := []; later := [Next (VStr "second")] |}
    end in
  let s := new_ExecSubject E VUndefined None None in
  getValue (self (foldl exec_step (exec (VNum 2) (exec (VNum 1) s))
                    [Settle 1; Settle 0])) = VStr "second".
Proof.
  intros E s.
  destruct (C1_switch_to_latest E VUndefined None None [] (VNum 1) (VNum 2)
              eq_refl) as (_ & Hrun & _).
  destruct (Hrun [Settle 1; Settle 0]) as (_ & Hself & _).
  exact (f_equal getValue Hself).
Defined.

(** *** What one notification does *)

(** [catchError] leaves no raise for [switchMap] to pass on. *)
Lemma performExec_no_raise n allocated :
  Forall (fun m => forall err, m <> Raise err) (performExec n allocated).1.
Proof.
  destruct n as [v|err|]; simpl; repeat constructor; discriminate.
Qed.

Lemma switchMap_Next v s :
  self (switchMap (Next v) s).1 =
    (if instanceof_Error v then self s else next v (self s)) /\
  _error (switchMap (Next v) s).1 =
    (if instanceof_Error v then next v <$> _error s else _error s) /\
  _loading (switchMap (Next v) s).1 = next (VBool false) <$> _loading s /\
  allocated (switchMap (Next v) s).1 = allocated s /\
  _executor (switchMap (Next v) s).1 = _executor s /\
  (switchMap (Next v) s).2 = false.
Proof.
  destruct s as [sf ex er lo inn exs al]. pipeline.
  destruct lo as [lo|], er as [er|]; simpl;
    destruct (instanceof_Error v); done.
Qed.

Lemma switchMap_Raise err s :
  self (switchMap (Raise err) s).1 = self s /\
  _error (switchMap (Raise err) s).1 =
    next (new_Error (allocated s) err) <$> _error s /\
  _loading (switchMap (Raise err) s).1 = next (VBool false) <$> _loading s /\
  allocated (switchMap (Raise err) s).1 = S (allocated s) /\
  _executor (switchMap (Raise err) s).1 = _executor s /\
  (switchMap (Raise err) s).2 = true.
Proof.
  destruct s as [sf ex er lo inn exs al]. pipeline.
  destruct lo as [lo|], er as [er|]; done.
Qed.

Lemma switchMap_Complete s : switchMap Complete s = (s, true).
Proof. by destruct s. Qed.

Lemma settle_open i s inv n rest :
  executions s !! i = Some inv ->
  closed inv = false ->
  pending inv = n :: rest ->
  settle i s =
  set_executions (innerSubscription s)
    (<[i := {| args := args inv; pending := rest;
               closed := (switchMap n s).2 |}]> (executions s))
    (switchMap n s).1.
Proof. intros Hi Hc Hp. by rewrite settle_eq, Hi, Hp, Hc. Qed.

Lemma notify_loading_fields b s :
  self (notify_loading b s) = self s /\
  _error (notify_loading b s) = _error s /\
  _loading (notify_loading b s) = next (VBool b) <$> _loading s /\
  allocated (notify_loading b s) = allocated s.
Proof.
  unfold notify_loading. destruct (_loading s) eqn:Hl; simpl; by rewrite ?Hl.
Qed.

Lemma accepts_all s : accepts s.
Proof.
  intros b x Hx. split.
  - intros rest Hnow. rewrite exec_eq, Hnow, !drain_cons.
    destruct (switchMap_Next x (notify_loading true s))
      as (Hs & He & Hl & _ & _ & ->).
    rewrite switchMap_Complete. fields.
    rewrite Hx in Hs, He.
    destruct (notify_loading_fields true s) as (_ & He' & Hl' & _).
    rewrite Hs, He, Hl, He', Hl'. done.
  - intros rest Hnow Hlater t. subst t. rewrite exec_async by done.
    match goal with |- context [settle _ ?s0] => set (s1 := s0) end.
    rewrite (settle_open (length (executions s)) s1
               {| args := b; pending := later (_executor s b);
                  closed := false |} (Next x) rest);
      [|apply list_lookup_middle; by rewrite length_unsubscribe|done|done].
    fields.
    destruct (switchMap_Next x s1) as (Hs & He & Hl & _).
    rewrite Hx in Hs, He. rewrite Hs, He, Hl. subst s1. fields.
    destruct (notify_loading_fields true s) as (_ & He' & Hl' & _).
    by rewrite He', Hl'.
Qed.

Lemma exec_fields a s :
  self (exec a s) =
    self (drain switchMap (now (_executor s a)) (notify_loading true s)).1 /\
  _error (exec a s) =
    _error (drain switchMap (now (_executor s a)) (notify_loading true s)).1 /\
  _loading (exec a s) =
    _loading (drain switchMap (now (_executor s a)) (notify_loading true s)).1
  /\
  allocated (exec a s) =
    allocated (drain switchMap (now (_executor s a))
                 (notify_loading true s)).1.
Proof. by rewrite exec_eq. Qed.

Lemma settle_fields i s inv n rest :
  executions s !! i = Some inv ->
  closed inv = false ->
  pending inv = n :: rest ->
  self (settle i s) = self (switchMap n s).1 /\
  _error (settle i s) = _error (switchMap n s).1 /\
  _loading (settle i s) = _loading (switchMap n s).1 /\
  allocated (settle i s) = allocated (switchMap n s).1.
Proof. intros Hi Hc Hp. by rewrite (settle_open i s inv n rest). Qed.

(** The inner subscriber [exec a s] has just created, when the production
    sends nothing at once. *)
Lemma exec_async_lookup a s :
  now (_executor s a) = [] ->
  executions (exec a s) !! length (executions s) =
  Some {| args := a; pending := later (_executor s a); closed := false |}.
Proof.
  intros Hnow. rewrite exec_async by done. fields.
  apply list_lookup_middle. by rewrite length_unsubscribe.
Qed.

(** ** Failures *)

(** C2.  On an object with an error and a loading channel, an [exec]
    whose production raises, while it is subscribed to or later, sends
    true and then false to the observers of the loading channel, leaves the
    public value and its observers as they were, and sends the error built
    from the raised value to the error channel; and the object takes a
    further [exec] that does not raise: its value becomes the public
    value. *)
Theorem C2_failure_is_data (s : ExecSubject) (a err : value)
    (e l : BehaviorSubject (list value)) :
  _error s = Some e ->
  _loading s = Some l ->
  (forall rest,
     now (_executor s a) = Raise err :: rest ->
     let s' := exec a s in
     _loading s' = Some (next (VBool false) (next (VBool true) l)) /\
     self s' = self s /\
     _error s' = Some (next (new_Error (allocated s) err) e) /\
     accepts s') /\
  (forall rest,
     now (_executor s a) = [] ->
     later (_executor s a) = Raise err :: rest ->
     let s1 := exec a s in
     let s' := settle (length (executions s)) s1 in
     (_loading s1 = Some (next (VBool true) l) /\
      self s1 = self s /\ _error s1 = Some e) /\
     _loading s' = Some (next (VBool false) (next (VBool true) l)) /\
     self s' = self s /\
     _error s' = Some (next (new_Error (allocated s) err) e) /\
     accepts s').
Proof.
  intros He Hl.
  destruct (notify_loading_fields true s) as (Hs0 & He0 & Hl0 & Ha0).
  rewrite He in He0. rewrite Hl in Hl0. simpl in Hl0.
  split.
  - intros rest Hnow s'. subst s'.
    destruct (exec_fields a s) as (-> & -> & -> & _).
    rewrite Hnow, drain_cons.
    destruct (switchMap_Raise err (notify_loading true s))
      as (Hs & He' & Hl' & _ & _ & ->).
    fields. rewrite Hs, He', Hl', Hs0, He0, Hl0, Ha0.
    split; [done|]. split; [done|]. split; [done|]. apply accepts_all.
  - intros rest Hnow Hlater s1 s'. subst s' s1.
    pose proof (exec_async_lookup a s Hnow) as Hi.
    destruct (settle_fields _ _ _ (Raise err) rest Hi eq_refl Hlater)
      as (-> & -> & -> & _).
    destruct (switchMap_Raise err (exec a s)) as (-> & -> & -> & _).
    rewrite (exec_async a s) by done. fields.
    rewrite Hs0, He0, Hl0, Ha0.
    split; [done|]. split; [done|]. split; [done|]. split; [done|].
    apply accepts_all.
Qed.

(** The scenario of the specification: [E = n => n === 0 ? raise("bad") :
    emit(n)], with a loading channel and an error channel. *)
Lemma C2_witness :
  let E : Executor := fun n =>
    if decide (n = VNum 0) then throwError (VStr "bad") else of_ n in
  let L := {| _value := VBool false; observers := [[]] |} in
  let Er := {| _value := VUndefined; observers := [[]] |} in
  let s := exec (VNum 0) (new_ExecSubject E (VNum 7) (Some Er) (Some L)) in
  (observers <$> _loading s) = Some [[VBool true; VBool false]] /\
  getValue (self s) = VNum 7 /\
  (getValue <$> _error s) = Some (VError (Library 0) "Error" "bad") /\
  getValue (self (exec (VNum 4) s)) = VNum 4.
Proof.
  intros E L Er s.
  destruct (proj1 (C2_failure_is_data
              (new_ExecSubject E (VNum 7) (Some Er) (Some L))
              (VNum 0) (VStr "bad") Er L eq_refl eq_refl) [] eq_refl)
    as (Hl & Hs & He & Hacc).
  split; [exact (f_equal (fmap observers) Hl)|].
  split; [exact (f_equal getValue Hs)|].
  split; [exact (f_equal (fmap getValue) He)|].
  exact (proj1 (proj1 (Hacc (VNum 4) (VNum 4) eq_refl) [] eq_refl)).
Defined.

(** ** Loading *)





(** ** Errors as values *)





(** ** The scenarios of the specification *)

(** [E = n => emit(n * 2)], [v0 = 0]: [exec(3)] makes the value 6, [exec(5)]
    makes it 10, and the error channel is never written. *)
Example scenario_double :
  let E : Executor := fun a =>
    match a with
    | VNum n => {| now := []; later := [Next (VNum (n * 2)); Complete] |}
    | _ => {| now := []; later := [] |}
    end in
  let Er := {| _value := VUndefined; observers := [[]] |} in
  let s := new_ExecSubject E (VNum 0) (Some Er) None in
  let s1 := foldl exec_step s [Exec (VNum 3); Settle 0] in
  let s2 := foldl exec_step s1 [Exec (VNum 5); Settle 1] in
  getValue (self s1) = VNum 6 /\
  getValue (self s2) = VNum 10 /\
  _error s2 = Some Er.
Proof. repeat split. Qed.

(** [E = n => n === 0 ? raise("bad") : emit(n)]: on [exec(0)] the loading
    channel shows true then false, the error channel receives an error
    wrapping "bad", and the value stays what it was. *)
Example scenario_bad :
  let E : Executor := fun a =>
    match a with
    | VNum 0 => {| now := []; later := [Raise (VStr "bad")] |}
    | _ => {| now := []; later := [Next a; Complete] |}
    end in
  let L := {| _value := VBool false; observers := [[]] |} in
  let Er := {| _value := VUndefined; observers := [[]] |} in
  let s := new_ExecSubject E (VNum 7) (Some Er) (Some L) in
  let s' := foldl exec_step s [Exec (VNum 0); Settle 0] in
  (observers <$> _loading s') = Some [[VBool true; VBool false]] /\
  (getValue <$> _error s') = Some (VError (Library 0) "Error" "bad") /\
  self s' = self s.
Proof. repeat split. Qed.

(** * Further properties of the code *)

(** ** What [next] sends *)

Lemma sent_nil b : sent [] b b.
Proof.
  split; [|done]. rewrite <- (list_fmap_id (observers b)) at 1.
  apply list_fmap_ext. intros _ seen _. simpl. by rewrite app_nil_r.
Qed.

Lemma sent_next x (b : BehaviorSubject (list value)) : sent [x] b (next x b).
Proof. done. Qed.

Lemma sent_app xs ys b b' b'' :
  sent xs b b' -> sent ys b' b'' -> sent (xs ++ ys) b b''.
Proof.
  intros [Ho Hv] [Ho' Hv']. split.
  - rewrite Ho', Ho, <- list_fmap_compose.
    apply list_fmap_ext. intros _ seen _. simpl. by rewrite app_assoc.
  - rewrite Hv', Hv, last_app. by destruct (last ys).
Qed.

Lemma sent_cons x xs (b b' : BehaviorSubject (list value)) :
  sent xs (next x b) b' -> sent (x :: xs) b b'.
Proof. intros Hs. apply (sent_app [x] xs b (next x b) b'); [done|done]. Qed.

(** ** execAndForward *)

Lemma deliver_Next {O : Type} `{Observer O} (w : world O) i inv x rest :
  invocations w !! i = Some inv ->
  closed inv = false ->
  pending inv = Next x :: rest ->
  deliver i w =
  set_invocation i {| args := args inv; pending := rest; closed := false |}
    {| subject := next x (subject w); invocations := invocations w;
       unhandled := unhandled w; journal := journal w |}.
Proof. intros Hi Hc Hp. unfold deliver. by rewrite Hi, Hp, Hc. Qed.

(** The values a production sends to an open forwarding subscriber reach
    the subject one by one in the order sent: after as many deliveries,
    every recording observer has received them in that order, the last one
    is the value of the subject, the subscriber is still open, and nothing
    was reported as unhandled. *)
Theorem execAndForward_in_order (w : world (list value)) (i : nat)
    (inv : invocation) (vs : list value) (tail : list notification) :
  invocations w !! i = Some inv ->
  closed inv = false ->
  pending inv = (Next <$> vs) ++ tail ->
  let w' := Nat.iter (length vs) (deliver i) w in
  sent vs (subject w) (subject w') /\
  invocations w' !! i =
    Some {| args := args inv; pending := tail; closed := false |} /\
  unhandled w' = unhandled w.
Proof.
  revert w inv. induction vs as [|x vs IH]; intros w inv Hi Hc Hp; simpl.
  - split; [apply sent_nil|]. split; [|done].
    rewrite Hi. f_equal. destruct inv; simpl in *. by subst.
  - rewrite <- Nat.iter_succ, Nat.iter_succ_r.
    rewrite (deliver_Next w i inv x ((Next <$> vs) ++ tail)) by done.
    match goal with |- context [Nat.iter _ _ ?w0] => set (w1 := w0) end.
    assert (Hi1 : invocations w1 !! i =
      Some {| args := args inv; pending := (Next <$> vs) ++ tail;
              closed := false |}).
    { unfold w1. simpl. apply list_lookup_insert_eq.
      by eapply lookup_lt_Some. }
    destruct (IH w1 _ Hi1 eq_refl eq_refl) as (Hs & Hl & Hu).
    split; [by apply sent_cons|]. split; [exact Hl|exact Hu].
Qed.

Lemma execAndForward_in_order_witness :
  let E : Executor := fun _ =>
    {| now := [];
       later := [Next (VNum 1); Next (VNum 2); Complete; Next (VNum 3)] |} in
  let w := attach [] (execOnce (O := list value) E (VNum 0)) in
  observers (subject (deliver 0 (deliver 0 w))) = [[VNum 0; VNum 1; VNum 2]].
Proof.
  intros E w.
  destruct (execAndForward_in_order w 0 _ [VNum 1; VNum 2]
              [Complete; Next (VNum 3)] eq_refl eq_refl eq_refl)
    as ([Ho _] & _).
  exact Ho.
Defined.

(** The end of one production, by completion or by a raise, says nothing
    to the productions of the other calls: a value sent next by the open
    production of another call reaches the subject all the same. *)
Theorem execAndForward_independent {O : Type} `{Observer O} (w : world O)
    (i j : nat) (invi invj : invocation) (n : notification)
    (resti restj : list notification) (x : value) :
  i <> j ->
  invocations w !! i = Some invi ->
  pending invi = n :: resti ->
  (forall v, n <> Next v) ->
  invocations w !! j = Some invj ->
  closed invj = false ->
  pending invj = Next x :: restj ->
  subject (deliver j (deliver i w)) = next x (subject w).
Proof.
  intros Hne Hi Hpi Hn Hj Hcj Hpj.
  assert (Hd : subject (deliver i w) = subject w /\
               invocations (deliver i w) !! j = Some invj).
  { unfold deliver. rewrite Hi, Hpi. destruct (closed invi); simpl.
    - split; [done|]. by rewrite list_lookup_insert_ne.
    - destruct n as [v| |]; [by destruct (Hn v)| |]; simpl;
        (split; [done|]); by rewrite list_lookup_insert_ne. }
  destruct Hd as [Hs Hj'].
  rewrite (deliver_value j (deliver i w) invj x restj) by done.
  by rewrite Hs.
Qed.

Lemma execAndForward_independent_witness :
  let E : Executor := fun a =>
    match a with
    | VNum 1 => {| now := []; later := [Raise (VStr "boom")] |}
    | _ => {| now := []; later := [Next (VStr "fine")] |}
    end in
  let w := foldl (controlled_step E)
             (execControlled E [] (VNum 0) (Some false))
             [Trigger (VNum 1); Trigger (VNum 2)] in
  getValue (subject (deliver 1 (deliver 0 w))) = VStr "fine".
Proof.
  intros E w.
  assert (Hn : forall v, Raise (VStr "boom") <> Next v) by discriminate.
  exact (f_equal getValue
    (execAndForward_independent w 0 1 _ _ (Raise (VStr "boom")) [] []
       (VStr "fine") ltac:(discriminate) eq_refl eq_refl Hn eq_refl eq_refl
       eq_refl)).
Defined.

(** ** execControlled *)

(** [execControlled] cancels nothing: when the trigger is called for [a1]
    and then for [a2] and the production for [a2] sends its value before the
    one for [a1], both values reach the subject and the value of the older
    call is the one that stays. *)
Theorem execControlled_keeps_older_calls (E : Executor)
    (w : world (list value)) (a1 a2 x1 x2 : value)
    (rest1 rest2 : list notification) :
  now (E a1) = [] -> later (E a1) = Next x1 :: rest1 ->
  now (E a2) = [] -> later (E a2) = Next x2 :: rest2 ->
  let i1 := length (invocations w) in
  let w' := foldl (controlled_step E) w
              [Trigger a1; Trigger a2;
               Env (Deliver (S i1)); Env (Deliver i1)] in
  sent [x2; x1] (subject w) (subject w') /\
  getValue (subject w') = x1.
Proof.
  intros Hn1 Hl1 Hn2 Hl2 i1 w'. subst w'. simpl. unfold doExec.
  rewrite (execAndForward_async E a1 w) by done.
  rewrite (execAndForward_async E a2) by done. simpl.
  rewrite Hl1, Hl2.
  match goal with |- context [deliver (S i1) ?w0] => set (w2 := w0) end.
  assert (H2 : invocations w2 !! S i1 =
    Some {| args := a2; pending := Next x2 :: rest2; closed := false |}).
  { unfold w2. simpl. rewrite <- app_assoc. simpl.
    replace (S i1) with (length (invocations w) + 1)%nat by (unfold i1; lia).
    by rewrite lookup_app_r, Nat.add_sub_swap, Nat.sub_diag by lia. }
  rewrite (deliver_Next w2 (S i1) _ x2 rest2 H2 eq_refl eq_refl).
  match goal with |- context [deliver i1 ?w0] => set (w3 := w0) end.
  assert (H1 : invocations w3 !! i1 =
    Some {| args := a1; pending := Next x1 :: rest1; closed := false |}).
  { unfold w3, w2. simpl. rewrite list_lookup_insert_ne by (unfold i1; lia).
    rewrite <- app_assoc. by apply list_lookup_middle. }
  rewrite (deliver_Next w3 i1 _ x1 rest1 H1 eq_refl eq_refl). simpl.
  split; [|done].
  apply sent_cons, sent_cons, sent_nil.
Qed.

Lemma execControlled_keeps_older_calls_witness :
  let E : Executor := fun a => {| now := []; later := [Next a] |} in
  let w := execControlled (O := list value) E [] (VNum 0) (Some false) in
  getValue (subject (foldl (controlled_step E) w
     [Trigger (VNum 1); Trigger (VNum 2);
      Env (Deliver 1); Env (Deliver 0)])) = VNum 1.
Proof.
  intros E w.
  exact (proj2 (execControlled_keeps_older_calls E w (VNum 1) (VNum 2)
                  (VNum 1) (VNum 2) [] [] eq_refl eq_refl eq_refl eq_refl)).
Defined.

(** ** execOnce *)

Lemma forward_value {O : Type} `{Observer O} n (w : world O) :
  subject (forward n w).1 = subject w \/
  exists v, n = Next v /\ getValue (subject (forward n w).1) = v.
Proof. destruct n as [v| |]; simpl; eauto. Qed.

Lemma drain_forward_value {O : Type} `{Observer O} ns (w : world O) :
  getValue (subject (drain forward ns w).1) = getValue (subject w) \/
  exists v, Next v ∈ ns /\ getValue (subject (drain forward ns w).1) = v.
Proof.
  revert w. induction ns as [|n ns IH]; intros w; [by left|].
  rewrite drain_cons. destruct n as [v|err|]; simpl; [|by left..].
  destruct (IH {| subject := next v (subject w);
                  invocations := invocations w; unhandled := unhandled w;
                  journal := journal w |}) as [Hs|(v' & Hin & Hv)].
  - right. exists v. split; [apply list_elem_of_here|]. by rewrite Hs.
  - right. exists v'. split; [by apply list_elem_of_further|done].
Qed.

Lemma once_step_forwards p v0 (w : world (list value)) o :
  forwards_of p w ->
  (getValue (subject w) = v0 \/ getValue (subject w) ∈ emissions p) ->
  forwards_of p (once_step w o) /\
  (getValue (subject (once_step w o)) = v0 \/
   getValue (subject (once_step w o)) ∈ emissions p).
Proof.
  intros Hfw Hval. destruct o as [i|]; simpl; [|done].
  unfold deliver. destruct (invocations w !! i) as [inv|] eqn:Hi; [|done].
  destruct (pending inv) as [|n rest] eqn:Hp; [done|].
  pose proof (lookup_lt_Some _ _ _ Hi) as Hlt.
  destruct (closed inv) eqn:Hc.
  - split; [|done]. intros j inv' Hj Hc' v Hv. simpl in Hj.
    destruct (decide (i = j)) as [->|Hne].
    + rewrite list_lookup_insert_eq in Hj by done. by simplify_eq/=.
    + rewrite list_lookup_insert_ne in Hj by done. by eapply Hfw.
  - assert (Hsent : forall v, Next v ∈ n :: rest -> v ∈ emissions p).
    { intros v Hv. apply (Hfw i inv Hi Hc). by rewrite Hp. }
    pose proof (forward_value n w) as Hn.
    pose proof (forward_invocations n w) as Hinv.
    destruct (forward n w) as [w' stop]. simpl in *. split.
    + intros j inv' Hj Hc' v Hv. simpl in Hj. rewrite Hinv in Hj.
      destruct (decide (i = j)) as [->|Hne].
      * rewrite list_lookup_insert_eq in Hj by done. simplify_eq/=.
        apply Hsent. by apply list_elem_of_further.
      * rewrite list_lookup_insert_ne in Hj by done. by eapply Hfw.
    + destruct Hn as [->|(v & -> & ->)]; [done|].
      right. apply Hsent, list_elem_of_here.
Qed.

(** The container [execOnce] returns never holds anything but the initial
    value or a value sent by the production of the one call, whatever is
    delivered and whoever subscribes: in particular a raised error never
    becomes its value. *)
Theorem execOnce_provenance (E : Executor) (v0 : value)
    (steps : list observation) :
  let w := foldl once_step (execOnce E v0) steps in
  getValue (subject w) = v0 \/
  getValue (subject w) ∈ emissions (E VUndefined).
Proof.
  assert (Hstart : forwards_of (E VUndefined)
                     (execOnce (O := list value) E v0) /\
    (getValue (subject (execOnce (O := list value) E v0)) = v0 \/
     getValue (subject (execOnce (O := list value) E v0))
       ∈ emissions (E VUndefined))).
  { unfold execOnce, execAndForward.
    match goal with |- context [drain forward ?ns ?w0] =>
      pose proof (drain_forward_value ns w0) as Hv;
      pose proof (drain_forward_invocations ns w0) as Hi;
      destruct (drain forward ns w0) as [w' stop] end.
    simpl in *. split.
    - intros j inv Hj Hc v Hin. rewrite Hi in Hj.
      destruct j; simpl in Hj; [|done]. simplify_eq/=.
      apply elem_of_emissions, elem_of_app. by right.
    - destruct Hv as [->|(v & Hin & ->)]; [by left|].
      right. apply elem_of_emissions, elem_of_app. by left. }
  simpl. revert Hstart. generalize (execOnce (O := list value) E v0).
  induction steps as [|o steps IH]; intros w [Hfw Hval]; simpl; [done|].
  apply IH. by apply once_step_forwards.
Qed.

(** ** execAlways, further *)

(** An observer that subscribes when the subject no longer holds the
    initial value receives the current value at once, and not the initial
    one. *)
Theorem execAlways_late_subscriber (E : Executor) (v0 : value)
    (w : world piped) :
  strict_equal (getValue (subject w)) v0 = false ->
  now (E VUndefined) = [] ->
  observers (subject (execAlways_subscribe E v0 w)) =
  observers (subject w) ++
  [{| initialValue := v0; key := Some (getValue (subject w));
      received := [getValue (subject w)] |}].
Proof.
  intros Hne Hnow. unfold execAlways_subscribe.
  rewrite execAndForward_async by done.
  unfold attach, subscribe. simpl. f_equal. f_equal.
  rewrite Hne. unfold observer_next, piped_observer. simpl.
  unfold getValue in Hne. by rewrite Hne.
Qed.

Lemma execAlways_late_subscriber_witness :
  let E : Executor := fun _ => {| now := []; later := [Next (VNum 4)] |} in
  received <$> observers (subject
     (foldl (always_step E (VNum 0)) (execAlways E (VNum 0))
        [Observe; Deliver 0; Observe])) =
  [[VNum 0; VNum 4]; [VNum 4]].
Proof.
  intros E.
  exact (f_equal (fmap received)
    (execAlways_late_subscriber E (VNum 0)
       (foldl (always_step E (VNum 0)) (execAlways E (VNum 0))
          [Observe; Deliver 0]) eq_refl eq_refl)).
Defined.

(** A value that differs from the one the subject holds and from the
    initial value reaches every subscriber that tracks the subject. *)
Lemma piped_broadcast v0 cur x (l : list piped) :
  Forall (tracks v0 cur) l ->
  strict_equal cur x = false ->
  strict_equal x v0 = false ->
  received <$> (observer_next x <$> l) =
  (fun o => received o ++ [x]) <$> l.
Proof.
  intros Hl Hcur Hx0. rewrite <- list_fmap_compose.
  apply Forall_fmap_ext_1. eapply Forall_impl; [exact Hl|].
  intros o (Hv0 & Hk & _). simpl.
  unfold observer_next, piped_observer, distinctUntilChanged.
  by rewrite Hk, Hcur, Hv0, Hx0.
Qed.

(** The initial value itself is never delivered by a subscriber. *)
Lemma piped_initial v0 cur (l : list piped) :
  Forall (tracks v0 cur) l ->
  strict_equal v0 v0 = true ->
  received <$> (observer_next v0 <$> l) = received <$> l.
Proof.
  intros Hl Hrefl. rewrite <- list_fmap_compose.
  apply Forall_fmap_ext_1. eapply Forall_impl; [exact Hl|].
  intros o (Hv0 & _ & _). simpl.
  destruct (piped_received v0 o) as [Hr|[_ Hne]]; [done|].
  rewrite Hv0 in Hne. congruence.
Qed.

Lemma always_inv_reachable E v0 steps :
  always_inv v0 (foldl (always_step E v0) (execAlways E v0) steps).
Proof. apply always_inv_steps. apply Forall_nil_2. Qed.

(** Whichever subscription started the call, a value its production sends
    that differs from the value the shared subject holds and from the
    initial value is delivered to every observer subscribed so far. *)
Theorem execAlways_broadcast (E : Executor) (v0 : value)
    (steps : list observation) (i : nat) (inv : invocation) (x : value)
    (rest : list notification) :
  let w := foldl (always_step E v0) (execAlways E v0) steps in
  invocations w !! i = Some inv ->
  closed inv = false ->
  pending inv = Next x :: rest ->
  strict_equal (getValue (subject w)) x = false ->
  strict_equal x v0 = false ->
  received <$> observers (subject (deliver i w)) =
  (fun o => received o ++ [x]) <$> observers (subject w).
Proof.
  intros w Hi Hc Hp Hcur Hx0.
  rewrite (deliver_value i w inv x rest) by done. simpl.
  eapply piped_broadcast; [apply always_inv_reachable|done|done].
Qed.

Lemma execAlways_broadcast_witness :
  let E : Executor := fun _ => {| now := []; later := [Next (VNum 4)] |} in
  received <$> observers (subject
     (foldl (always_step E (VNum 0)) (execAlways E (VNum 0))
        [Observe; Observe; Deliver 1])) =
  [[VNum 0; VNum 4]; [VNum 0; VNum 4]].
Proof.
  intros E.
  exact (execAlways_broadcast E (VNum 0) [Observe; Observe] 1 _ (VNum 4) []
           eq_refl eq_refl eq_refl eq_refl eq_refl).
Defined.

Lemma tracks_all_next v0 cur val (l : list piped) :
  Forall (tracks v0 cur) l ->
  Forall (tracks v0 val) (observer_next val <$> l).
Proof.
  intros Hl. apply Forall_fmap. eapply Forall_impl; [exact Hl|].
  intros o (Hv0 & _ & Hf). simpl. by apply tracks_next.
Qed.

Lemma strict_equal_false_sym a b :
  strict_equal a b = false -> strict_equal b b = true ->
  strict_equal b a = false.
Proof.
  intros Hab Hbb. destruct (strict_equal b a) eqn:Hba; [|done].
  apply strict_equal_eq in Hba. subst. congruence.
Qed.

(** [distinctUntilChanged] comes before the test against the initial value:
    when a production sends [x], then the initial value, then [x] again,
    the initial value is let through but not delivered, and every observer
    receives [x] twice in a row. *)
Theorem execAlways_repeats_around_initial (E : Executor) (v0 : value)
    (steps : list observation) (i : nat) (inv : invocation) (x : value)
    (rest : list notification) :
  let w := foldl (always_step E v0) (execAlways E v0) steps in
  invocations w !! i = Some inv ->
  closed inv = false ->
  pending inv = Next x :: Next v0 :: Next x :: rest ->
  strict_equal (getValue (subject w)) x = false ->
  strict_equal x v0 = false ->
  strict_equal v0 v0 = true ->
  received <$> observers (subject (deliver i (deliver i (deliver i w)))) =
  (fun o => received o ++ [x; x]) <$> observers (subject w).
Proof.
  intros w Hi Hc Hp Hcur Hx0 Hrefl.
  pose proof (always_inv_reachable E v0 steps) as Hinv. fold w in Hinv.
  pose proof (lookup_lt_Some _ _ _ Hi) as Hlt.
  rewrite (deliver_Next w i inv x _ Hi Hc Hp).
  match goal with |- context [deliver i (deliver i ?w0)] => set (w1 := w0) end.
  assert (Hi1 : invocations w1 !! i =
    Some {| args := args inv; pending := Next v0 :: Next x :: rest;
            closed := false |}).
  { unfold w1. simpl. by apply list_lookup_insert_eq. }
  rewrite (deliver_Next w1 i _ v0 _ Hi1 eq_refl eq_refl).
  match goal with |- context [deliver i ?w0] => set (w2 := w0) end.
  assert (Hi2 : invocations w2 !! i =
    Some {| args := args inv; pending := Next x :: rest; closed := false |}).
  { unfold w2, w1. simpl. apply list_lookup_insert_eq.
    by rewrite length_insert. }
  rewrite (deliver_value i w2 _ x rest Hi2 eq_refl eq_refl).
  unfold w2, w1. simpl.
  set (l := observers (subject w)).
  assert (H1 : Forall (tracks v0 x) (observer_next x <$> l))
    by (eapply tracks_all_next; exact Hinv).
  assert (H2 : Forall (tracks v0 v0)
                 (observer_next v0 <$> (observer_next x <$> l)))
    by (eapply tracks_all_next; exact H1).
  rewrite (piped_broadcast v0 v0 x _ H2
             (strict_equal_false_sym x v0 Hx0 Hrefl) Hx0).
  rewrite (list_fmap_compose received (fun r => r ++ [x])).
  rewrite (piped_initial v0 x _ H1 Hrefl).
  rewrite (piped_broadcast v0 _ x l Hinv Hcur Hx0).
  rewrite <- list_fmap_compose. apply list_fmap_ext.
  intros _ o _. simpl. by rewrite <- app_assoc.
Qed.

Lemma execAlways_repeats_around_initial_witness :
  let E : Executor := fun _ =>
    {| now := [];
       later := [Next (VNum 4); Next (VNum 0); Next (VNum 4)] |} in
  let w := foldl (always_step E (VNum 0)) (execAlways E (VNum 0)) [Observe] in
  received <$> observers (subject (deliver 0 (deliver 0 (deliver 0 w)))) =
  [[VNum 0; VNum 4; VNum 4]].
Proof.
  intros E w.
  exact (execAlways_repeats_around_initial E (VNum 0) [Observe] 0 _ (VNum 4)
           [] eq_refl eq_refl eq_refl eq_refl eq_refl eq_refl).
Defined.

(** ** ExecSubject, further *)

Lemma option_sent_nil c : option_sent [] c c.
Proof. destruct c; simpl; [apply sent_nil|done]. Qed.

Lemma option_sent_next x c : option_sent [x] c (next x <$> c).
Proof. destruct c; simpl; done. Qed.

Lemma option_sent_app xs ys c c' c'' :
  option_sent xs c c' -> option_sent ys c' c'' ->
  option_sent (xs ++ ys) c c''.
Proof.
  destruct c, c', c''; simpl; try done. apply sent_app.
Qed.

Lemma streams_refl s : streams [] [] [] s s.
Proof.
  split; [apply sent_nil|]. split; apply option_sent_nil.
Qed.

Lemma streams_trans p1 e1 l1 p2 e2 l2 s s' s'' :
  streams p1 e1 l1 s s' -> streams p2 e2 l2 s' s'' ->
  streams (p1 ++ p2) (e1 ++ e2) (l1 ++ l2) s s''.
Proof.
  intros (Hp & He & Hl) (Hp' & He' & Hl').
  split; [by eapply sent_app|]. split; by eapply option_sent_app.
Qed.

Lemma streams_notify_loading b s :
  streams [] [] [VBool b] s (notify_loading b s).
Proof.
  destruct (notify_loading_fields b s) as (Hs & He & Hl & _).
  unfold streams. rewrite Hs, He, Hl.
  split; [apply sent_nil|]. split; [apply option_sent_nil|].
  apply option_sent_next.
Qed.

(** What one notification of the inner production sends where. *)
Lemma streams_switchMap n s :
  streams
    (match n with
     | Next v => if instanceof_Error v then [] else [v]
     | _ => []
     end)
    (match n with
     | Next v => if instanceof_Error v then [v] else []
     | Raise err => [new_Error (allocated s) err]
     | Complete => []
     end)
    (match n with Complete => [] | _ => [VBool false] end)
    s (switchMap n s).1.
Proof.
  unfold streams. destruct n as [v|err|].
  - destruct (switchMap_Next v s) as (-> & -> & -> & _).
    destruct (instanceof_Error v).
    + split; [apply sent_nil|].
      split; [apply option_sent_next|apply option_sent_next].
    + split; [apply sent_next|].
      split; [apply option_sent_nil|apply option_sent_next].
  - destruct (switchMap_Raise err s) as (-> & -> & -> & _).
    split; [apply sent_nil|].
    split; [apply option_sent_next|apply option_sent_next].
  - rewrite switchMap_Complete.
    split; [apply sent_nil|]. split; apply option_sent_nil.
Qed.

(** The three streams carry values of their kind only. *)
Lemma typed_switchMap n s :
  exists pub err load,
    Forall (fun v => instanceof_Error v = false) pub /\
    Forall (fun v => instanceof_Error v = true) err /\
    Forall (fun v => exists b, v = VBool b) load /\
    streams pub err load s (switchMap n s).1.
Proof.
  eexists _, _, _. split; [|split; [|split; [|apply streams_switchMap]]].
  - destruct n as [v|err|]; [|done..].
    destruct (instanceof_Error v) eqn:Hv; [done|].
    by apply Forall_singleton.
  - destruct n as [v|err|]; [| |done].
    + destruct (instanceof_Error v) eqn:Hv; [|done].
      by apply Forall_singleton.
    + by apply Forall_singleton.
  - destruct n as [v|err|]; [| |done]; apply Forall_singleton; eauto.
Qed.

Lemma typed_trans s s' s'' :
  (exists pub err load,
     Forall (fun v => instanceof_Error v = false) pub /\
     Forall (fun v => instanceof_Error v = true) err /\
     Forall (fun v => exists b, v = VBool b) load /\
     streams pub err load s s') ->
  (exists pub err load,
     Forall (fun v => instanceof_Error v = false) pub /\
     Forall (fun v => instanceof_Error v = true) err /\
     Forall (fun v => exists b, v = VBool b) load /\
     streams pub err load s' s'') ->
  exists pub err load,
    Forall (fun v => instanceof_Error v = false) pub /\
    Forall (fun v => instanceof_Error v = true) err /\
    Forall (fun v => exists b, v = VBool b) load /\
    streams pub err load s s''.
Proof.
  intros (p1 & e1 & l1 & Hp1 & He1 & Hl1 & H1)
         (p2 & e2 & l2 & Hp2 & He2 & Hl2 & H2).
  exists (p1 ++ p2), (e1 ++ e2), (l1 ++ l2).
  split; [by apply Forall_app|]. split; [by apply Forall_app|].
  split; [by apply Forall_app|]. by eapply streams_trans.
Qed.

Lemma typed_set_executions k l s s' :
  (exists pub err load,
     Forall (fun v => instanceof_Error v = false) pub /\
     Forall (fun v => instanceof_Error v = true) err /\
     Forall (fun v => exists b, v = VBool b) load /\
     streams pub err load s s') ->
  exists pub err load,
    Forall (fun v => instanceof_Error v = false) pub /\
    Forall (fun v => instanceof_Error v = true) err /\
    Forall (fun v => exists b, v = VBool b) load /\
    streams pub err load s (set_executions k l s').
Proof. intros H. exact H. Qed.

Lemma typed_refl s :
  exists pub err load,
    Forall (fun v => instanceof_Error v = false) pub /\
    Forall (fun v => instanceof_Error v = true) err /\
    Forall (fun v => exists b, v = VBool b) load /\
    streams pub err load s s.
Proof. exists [], [], []. repeat (split; [done|]). apply streams_refl. Qed.

Lemma typed_drain ns s :
  exists pub err load,
    Forall (fun v => instanceof_Error v = false) pub /\
    Forall (fun v => instanceof_Error v = true) err /\
    Forall (fun v => exists b, v = VBool b) load /\
    streams pub err load s (drain switchMap ns s).1.
Proof.
  revert s. induction ns as [|n ns IH]; intros s.
  - apply typed_refl.
  - rewrite drain_cons. destruct (switchMap n s).2 eqn:Hstop.
    + apply typed_switchMap.
    + eapply typed_trans; [apply typed_switchMap|apply IH].
Qed.

Lemma typed_step c s :
  exists pub err load,
    Forall (fun v => instanceof_Error v = false) pub /\
    Forall (fun v => instanceof_Error v = true) err /\
    Forall (fun v => exists b, v = VBool b) load /\
    streams pub err load s (exec_step s c).
Proof.
  destruct c as [a|i]; simpl.
  - rewrite exec_eq. apply typed_set_executions.
    eapply typed_trans; [|apply (typed_drain (now (_executor s a)))].
    exists [], [], [VBool true]. split; [done|]. split; [done|].
    split; [apply Forall_singleton; eauto|]. apply streams_notify_loading.
  - rewrite settle_eq.
    destruct (executions s !! i) as [inv|]; [|apply typed_refl].
    destruct (pending inv) as [|n rest]; [apply typed_refl|].
    destruct (closed inv); apply typed_set_executions;
      [apply typed_refl|apply typed_switchMap].
Qed.

Lemma typed_run cs s :
  exists pub err load,
    Forall (fun v => instanceof_Error v = false) pub /\
    Forall (fun v => instanceof_Error v = true) err /\
    Forall (fun v => exists b, v = VBool b) load /\
    streams pub err load s (foldl exec_step s cs).
Proof.
  revert s. induction cs as [|c cs IH]; intros s; simpl.
  - apply typed_refl.
  - eapply typed_trans; [apply typed_step|apply IH].
Qed.

Lemma error_channel_has_only_errors_aux (s : ExecSubject)
    (cs : list command) :
  exists err,
    Forall (fun v => instanceof_Error v = true) err /\
    option_sent err (_error s) (_error (foldl exec_step s cs)).
Proof.
  destruct (typed_run cs s) as (pub & err & load & _ & He & _ & _ & Hs & _).
  by exists err.
Qed.

(** Whatever is executed and delivered, every value the pipeline sends to
    the object itself is not an [Error]: errors never reach the public
    stream. *)
Theorem public_stream_has_no_error (s : ExecSubject) (cs : list command) :
  exists pub,
    Forall (fun v => instanceof_Error v = false) pub /\
    sent pub (self s) (self (foldl exec_step s cs)).
Proof.
  destruct (typed_run cs s) as (pub & err & load & Hp & _ & _ & Hs & _).
  by exists pub.
Qed.

(** Whatever is executed and delivered, the error channel receives [Error]
    objects only, is never cleared, and a channel that was left out stays
    out. *)
Theorem error_channel_has_only_errors (s : ExecSubject) (cs : list command) :
  exists err,
    Forall (fun v => instanceof_Error v = true) err /\
    option_sent err (_error s) (_error (foldl exec_step s cs)).
Proof.
  destruct (typed_run cs s) as (pub & err & load & _ & He & _ & _ & Hs & _).
  by exists err.
Qed.

(** Whatever is executed and delivered, the loading channel receives
    booleans only, and a channel that was left out stays out. *)
Theorem loading_channel_has_only_booleans (s : ExecSubject)
    (cs : list command) :
  exists load,
    Forall (fun v => exists b, v = VBool b) load /\
    option_sent load (_loading s) (_loading (foldl exec_step s cs)).
Proof.
  destruct (typed_run cs s) as (pub & err & load & _ & _ & Hl & _ & _ & Hs).
  by exists load.
Qed.

(** Without an error channel a failure is dropped: after any run the
    channel is still absent, and a raise of the production [switchMap]
    listens to leaves the object itself as it was, still clears loading, and
    closes the inner subscription. *)
Theorem failure_without_error_channel (s0 : ExecSubject)
    (cs : list command) (i : nat) (inv : invocation) (err : value)
    (rest : list notification) :
  _error s0 = None ->
  let s := foldl exec_step s0 cs in
  executions s !! i = Some inv ->
  closed inv = false ->
  pending inv = Raise err :: rest ->
  _error s = None /\
  self (settle i s) = self s /\
  _error (settle i s) = None /\
  _loading (settle i s) = next (VBool false) <$> _loading s /\
  inner_closed i (settle i s).
Proof.
  intros He0 s Hi Hc Hp.
  assert (He : _error s = None).
  { destruct (error_channel_has_only_errors_aux s0 cs) as (e & _ & Hs).
    fold s in Hs. rewrite He0 in Hs. simpl in Hs.
    by destruct (_error s). }
  split; [done|].
  destruct (settle_fields i s inv (Raise err) rest Hi Hc Hp)
    as (-> & -> & -> & _).
  destruct (switchMap_Raise err s) as (-> & -> & -> & _ & _ & Hstop).
  rewrite He. split; [done|]. split; [done|]. split; [done|].
  rewrite (settle_open i s inv (Raise err) rest) by done. rewrite Hstop.
  exists {| args := args inv; pending := rest; closed := true |}.
  split; [|done]. fields.
  apply list_lookup_insert_eq. by eapply lookup_lt_Some.
Qed.

Lemma failure_without_error_channel_witness :
  let E : Executor := fun _ => {| now := []; later := [Raise (VStr "bad")] |} in
  let L := {| _value := VBool false; observers := [[]] |} in
  let s := exec VUndefined (new_ExecSubject E (VNum 7) None (Some L)) in
  getValue (self (settle 0 s)) = VNum 7 /\
  (observers <$> _loading (settle 0 s)) = Some [[VBool true; VBool false]].
Proof.
  intros E L s.
  destruct (failure_without_error_channel
              (new_ExecSubject E (VNum 7) None (Some L)) [Exec VUndefined]
              0 _ (VStr "bad") [] eq_refl eq_refl eq_refl eq_refl)
    as (_ & Hs & _ & Hl & _).
  split; [exact (f_equal getValue Hs)|exact (f_equal (fmap observers) Hl)].
Defined.

(** The values the production [switchMap] listens to sends are split by
    [instanceof Error], each part in the order sent: those that are not
    errors go to the object itself, the errors go to the error channel as
    they are, and loading receives false once per value.  Nothing is
    allocated and the inner subscription stays open. *)
Theorem init_splits_by_instanceof (s : ExecSubject) (i : nat)
    (inv : invocation) (vs : list value) (tail : list notification) :
  executions s !! i = Some inv ->
  closed inv = false ->
  pending inv = (Next <$> vs) ++ tail ->
  let s' := Nat.iter (length vs) (settle i) s in
  streams (filter (fun v => instanceof_Error v = false) vs)
          (filter (fun v => instanceof_Error v = true) vs)
          (replicate (length vs) (VBool false)) s s' /\
  executions s' !! i =
    Some {| args := args inv; pending := tail; closed := false |} /\
  allocated s' = allocated s.
Proof.
  revert s inv. induction vs as [|v vs IH]; intros s inv Hi Hc Hp; simpl.
  - split; [apply streams_refl|]. split; [|done].
    rewrite Hi. f_equal. destruct inv; simpl in *. by subst.
  - rewrite <- Nat.iter_succ, Nat.iter_succ_r.
    rewrite (settle_open i s inv (Next v) ((Next <$> vs) ++ tail)) by done.
    destruct (switchMap_Next v s) as (_ & _ & _ & Ha & _ & Hstop).
    rewrite Hstop.
    match goal with |- context [Nat.iter _ _ ?s0] => set (s1 := s0) end.
    assert (Hi1 : executions s1 !! i =
      Some {| args := args inv; pending := (Next <$> vs) ++ tail;
              closed := false |}).
    { unfold s1. fields. apply list_lookup_insert_eq.
      by eapply lookup_lt_Some. }
    destruct (IH s1 _ Hi1 eq_refl eq_refl) as (Hs & Hl & Hal).
    split; [|split; [exact Hl|by rewrite Hal]].
    assert (H1 : streams (if instanceof_Error v then [] else [v])
                         (if instanceof_Error v then [v] else [])
                         [VBool false] s s1)
      by exact (streams_switchMap (Next v) s).
    pose proof (streams_trans _ _ _ _ _ _ _ _ _ H1 Hs) as Hall.
    rewrite !filter_cons.
    destruct (instanceof_Error v) eqn:Hv; exact Hall.
Qed.

Lemma init_splits_by_instanceof_witness :
  let oops := VError (Caller 1) "Error" "oops" in
  let E : Executor := fun _ =>
    {| now := [];
       later := [Next (VNum 1); Next oops; Next (VNum 2); Complete] |} in
  let Er := {| _value := VUndefined; observers := [[]] |} in
  let s := exec VUndefined (new_ExecSubject E (VNum 0) (Some Er) None) in
  let s' := settle 0 (settle 0 (settle 0 s)) in
  getValue (self s') = VNum 2 /\
  (observers <$> _error s') = Some [[oops]].
Proof.
  intros oops E Er s s'.
  destruct (init_splits_by_instanceof s 0 _ [VNum 1; oops; VNum 2] [Complete]
              eq_refl eq_refl eq_refl) as ((Hp & He & _) & _).
  split; [exact (proj2 Hp)|].
  change (option_sent [oops] (Some Er) (_error s')) in He.
  destruct (_error s') as [e'|]; [|done].
  exact (f_equal Some (proj1 He)).
Defined.

(** A closed inner subscriber leaves the three streams alone. *)
Lemma settle_closed_streams i s :
  inner_closed i s ->
  self (settle i s) = self s /\
  _error (settle i s) = _error s /\
  _loading (settle i s) = _loading s.
Proof.
  intros Hc. pose proof (forget_settle_same i s Hc) as Hf.
  split; [exact (f_equal self Hf)|].
  split; [exact (f_equal _error Hf)|exact (f_equal _loading Hf)].
Qed.

(** A production that completes without sending anything never ends
    loading: after [exec], however often that production is given the word,
    the loading channel still holds true and the public value is
    unchanged. *)
Theorem empty_production_keeps_loading (s : ExecSubject)
    (l : BehaviorSubject (list value)) (a : value)
    (rest : list notification) (k : nat) :
  _loading s = Some l ->
  now (_executor s a) = [] ->
  later (_executor s a) = Complete :: rest ->
  let s' := Nat.iter k (settle (length (executions s))) (exec a s) in
  _loading s' = Some (next (VBool true) l) /\
  self s' = self s.
Proof.
  intros Hl Hnow Hlater.
  assert (H0 : _loading (exec a s) = Some (next (VBool true) l) /\
               self (exec a s) = self s).
  { rewrite exec_async by done. fields.
    destruct (notify_loading_fields true s) as (-> & _ & -> & _).
    by rewrite Hl. }
  destruct k as [|k]; [exact H0|].
  assert (H1 : forall m,
    let t := Nat.iter (S m) (settle (length (executions s))) (exec a s) in
    inner_closed (length (executions s)) t /\
    _loading t = Some (next (VBool true) l) /\ self t = self s).
  { induction m as [|m IH].
    - simpl.
      pose proof (exec_async_lookup a s Hnow) as Hi.
      rewrite (settle_open _ _ _ Complete rest Hi eq_refl Hlater).
      rewrite switchMap_Complete. fields.
      split; [|exact H0].
      exists {| args := a; pending := rest; closed := true |}.
      split; [|done]. apply list_lookup_insert_eq.
      by eapply lookup_lt_Some.
    - destruct IH as (Hc & Hl' & Hs').
      change (Nat.iter (S (S m)) ?f ?x) with (f (Nat.iter (S m) f x)).
      cbv zeta.
      destruct (settle_closed_streams _ _ Hc) as (-> & _ & ->).
      split; [by apply settle_keeps_closed|done]. }
  destruct (H1 k) as (_ & ? & ?). done.
Qed.

Lemma empty_production_keeps_loading_witness :
  let E : Executor := fun _ => {| now := []; later := [Complete] |} in
  let L := {| _value := VBool false; observers := [[]] |} in
  (getValue <$> _loading
     (settle 0 (exec VUndefined
                  (new_ExecSubject E (VNum 0) None (Some L))))) =
  Some (VBool true).
Proof.
  intros E L.
  exact (f_equal (fmap getValue)
    (proj1 (empty_production_keeps_loading
              (new_ExecSubject E (VNum 0) None (Some L)) L VUndefined []
              1 eq_refl eq_refl eq_refl))).
Defined.




